(** * mcp-communicator-telegram: the correlation engine and the archiver

    A shallow embedding of [src/index.ts]:
    - the correlation-id generator and the marker scanned by [handleMessage];
    - the engine state ([pendingQuestions], [lastQuestionId]) with the
      [message] handler and the [ask_user] tool, cut at its two [await]s;
    - the directory walk of [zipProject] with the errors that end it, its
      size check and the [zip_project] tool;
    - [notify_user] and the [parseInt] that gives the chat written to.

    Console output is not modelled.  Strings are byte strings: every
    character the code inspects (['#'], [[a-z0-9]], line feed, ['/'], ['.'])
    is ASCII. *)

From Stdlib Require Import ZArith NArith QArith String Ascii List Lia.
From stdpp Require Import base option list gmap strings pretty.

Local Open Scope string_scope.

(* ================================================================= *)
(** ** Thrown errors *)

(** A JavaScript computation either throws [Error(e)] or returns. *)
Inductive result (A : Type) : Type :=
| Throw (e : string)
| Ok (a : A).
Arguments Throw {A} e.
Arguments Ok {A} a.

(** How a promise returned by the bot API settles. *)
Inductive send_result : Type :=
| SendOk
| SendError (e : string).

(* ================================================================= *)
(** ** Correlation ids and the marker *)

(** The line feed written [\n] in the source. *)
Definition LF : ascii := "010"%char.

(** The character class [[a-z0-9]]. *)
Definition is_id_char (c : ascii) : bool :=
  let n := nat_of_ascii c in
  ((97 <=? n)%nat && (n <=? 122)%nat) || ((48 <=? n)%nat && (n <=? 57)%nat).

(** [take_id s]: the longest prefix of [s] made of [[a-z0-9]], and the rest;
    what the greedy [[a-z0-9]+] consumes before it tries [\n]. *)
Fixpoint take_id (s : string) : string * string :=
  match s with
  | String c s' =>
      if is_id_char c
      then let '(tok, rest) := take_id s' in (String c tok, rest)
      else (EmptyString, s)
  | EmptyString => (EmptyString, EmptyString)
  end.

(** The pattern [/#([a-z0-9]+)\n/] tried at the first character of [s];
    the result is capture group 1.  Giving characters back from the greedy
    run cannot help, because the character after a shorter run is in
    [[a-z0-9]] and so is not the line feed. *)
Definition match_here (s : string) : option string :=
  match s with
  | String "#" s' =>
      match take_id s' with
      | (String c tok, String "010" _) => Some (String c tok)
      | _ => None
      end
  | _ => None
  end.

(** [text.match(/#([a-z0-9]+)\n/)] followed by [match[1]]: the leftmost
    position at which the pattern matches wins; [None] is JavaScript's
    [null]. *)
Fixpoint match_marker (s : string) : option string :=
  match match_here s with
  | Some id => Some id
  | None =>
      match s with
      | String _ s' => match_marker s'
      | EmptyString => None
      end
  end.

(** A string of [[a-z0-9]] characters, and a non-empty one: the strings
    the capture group [([a-z0-9]+)] can hold. *)
Fixpoint all_id_chars (s : string) : bool :=
  match s with
  | EmptyString => true
  | String c s' => is_id_char c && all_id_chars s'
  end.

Definition id_token (id : string) : bool :=
  match id with
  | EmptyString => false
  | String _ _ => all_id_chars id
  end.

(** What a match of [/#([a-z0-9]+)\n/] in [s] is: [s] reads [pre], then
    ['#'], then the non-empty [[a-z0-9]] string [id] captured by group 1,
    then a line feed, then [post]. *)
Definition marker_at (pre id post s : string) : Prop :=
  s = pre ++ String "#" (id ++ String LF post) ∧ id_token id = true.

(** [s.substring(n)]: drops the first [n] characters, the empty string
    when [s] is not longer than [n]. *)
Fixpoint substring (n : nat) (s : string) : string :=
  match n, s with
  | O, _ => s
  | S n', String _ s' => substring n' s'
  | S _, EmptyString => EmptyString
  end.

(** [Math.random().toString(36).substring(7)], as a function of the
    radix-36 numeral [random36 = Math.random().toString(36)]: a numeral
    ["0.d1d2..."] loses ["0."] and its first five digits. *)
Definition newQuestionId (random36 : string) : string := substring 7 random36.

(** The template literal [`#${questionId}\n${question}`]. *)
Definition outboundText (questionId question : string) : string :=
  "#" ++ questionId ++ String LF question.

(** The value of a radix-36 digit, as [toString(36)] writes them. *)
Definition digit36 (c : ascii) : option Z :=
  let n := Z.of_nat (nat_of_ascii c) in
  if ((48 <=? n) && (n <=? 57))%Z then Some (n - 48)%Z
  else if ((97 <=? n) && (n <=? 122))%Z then Some (n - 87)%Z
  else None.

(** The value of the digits after the radix point, the first one worth
    [1/36]. *)
Fixpoint fraction36 (ds : string) : option Q :=
  match ds with
  | EmptyString => Some 0%Q
  | String c ds' =>
      match digit36 c, fraction36 ds' with
      | Some d, Some q => Some (((d # 1) + q) / (36 # 1))%Q
      | _, _ => None
      end
  end.

(** The number a numeral ["0"] or ["0.ddd"] of [Math.random().toString(36)]
    denotes. *)
Definition value36 (random36 : string) : option Q :=
  match random36 with
  | String "0" EmptyString => Some 0%Q
  | String "0" (String "." (String c ds)) => fraction36 (String c ds)
  | _ => None
  end.

(* ================================================================= *)
(** ** The engine state *)

(** The module-level variables [bot], [pendingQuestions] and
    [lastQuestionId], with the bookkeeping of the runtime.  A [resolve]
    function is named by the rank of its promise in creation order;
    [next_resolver] is the rank of the next promise, [invoked] the calls of
    resolvers so far (latest first) and [outbox] the texts handed to
    [bot.sendMessage] (latest first). *)
Record state : Type := State {
  bot : bool;
  pendingQuestions : gmap string nat;
  lastQuestionId : option string;
  next_resolver : nat;
  invoked : list (nat * string);
  outbox : list string;
}.

(** The fields of [TelegramBot.Message] the handler reads.  [chat_id] is
    the integer [msg.chat.id]; its [toString()] is the decimal numeral
    [pretty (chat_id msg)]. *)
Record reply : Type := Reply { reply_text : option string }.

Record message : Type := Message {
  chat_id : Z;
  text : option string;
  reply_to_message : option reply;
}.

(** Truthiness of a [string | null | undefined]. *)
Definition truthy (v : option string) : bool :=
  match v with
  | Some (String _ _) => true
  | _ => false
  end.

(** Lines 49-56 of [handleMessage]: the id read from the replied-to text. *)
Definition questionId_of_reply (msg : message) : option string :=
  let quoted := reply_to_message msg ≫= reply_text in
  if truthy quoted then match_marker (default "" quoted) else None.

(** Lines 49-60: that id, or [lastQuestionId] when it is falsy. *)
Definition questionId_of (msg : message) (s : state) : option string :=
  let questionId := questionId_of_reply msg in
  if truthy questionId then questionId else lastQuestionId s.

(** Lines 66-71: the resolver found under [questionId] is called with the
    message text, the entry is deleted and [lastQuestionId] is reset. *)
Definition resolve_question (questionId : string) (resolve : nat)
  (answer : string) (s : state) : state :=
  {| bot := bot s;
     pendingQuestions := delete questionId (pendingQuestions s);
     lastQuestionId := None;
     next_resolver := next_resolver s;
     invoked := (resolve, answer) :: invoked s;
     outbox := outbox s |}.

(** [handleMessage], the listener of the bot's ['message'] event. *)
Definition handleMessage (validatedChatId : string) (msg : message) (s : state)
  : state :=
  if negb (String.eqb (pretty (chat_id msg)) validatedChatId)
     || negb (truthy (text msg))
  then s
  else
    let questionId := questionId_of msg s in
    if truthy questionId then
      match pendingQuestions s !! default "" questionId with
      | Some resolve =>
          resolve_question (default "" questionId) resolve
            (default "" (text msg)) s
      | None => s
      end
    else s.

(** A stretch of a tool handler that runs without yielding: it reads and
    writes the engine state and returns or throws. *)
Definition tool (A : Type) : Type := state → result A * state.

#[global] Instance tool_ret : MRet tool := λ A a s, (Ok a, s).

#[global] Instance tool_bind : MBind tool := λ A B f m s,
  match m s with
  | (Throw e, s') => (Throw e, s')
  | (Ok a, s') => f a s'
  end.

Definition throw {A : Type} (e : string) : tool A := λ s, (Throw e, s).

(** [ask_user] from its call to [await bot.sendMessage(...)]: the id is
    drawn and stored in [lastQuestionId], and the text is handed to the
    bot. *)
Definition ask_user_send (random36 question : string) : tool string := λ s,
  if negb (bot s) then throw "Bot not initialized" s
  else
    let questionId := newQuestionId random36 in
    (Ok questionId,
     {| bot := bot s;
        pendingQuestions := pendingQuestions s;
        lastQuestionId := Some questionId;
        next_resolver := next_resolver s;
        invoked := invoked s;
        outbox := outboundText questionId question :: outbox s |}).

(** [ask_user] from the settling of [sendMessage] to the second [await]: a
    rejection is thrown on; otherwise the new promise's [resolve] is stored
    under [questionId], and the caller waits for that promise. *)
Definition ask_user_settle (questionId : string) (sent : send_result)
  : tool nat := λ s,
  match sent with
  | SendError e => throw e s
  | SendOk =>
      let resolve := next_resolver s in
      (Ok resolve,
       {| bot := bot s;
          pendingQuestions := <[questionId := resolve]> (pendingQuestions s);
          lastQuestionId := lastQuestionId s;
          next_resolver := S resolve;
          invoked := invoked s;
          outbox := outbox s |})
  end.

(** [ask_user] up to the point where its caller is suspended, when nothing
    else runs while the message is being sent. *)
Definition ask_user (random36 question : string) (sent : send_result)
  : tool nat :=
  questionId ← ask_user_send random36 question;
  ask_user_settle questionId sent.

(** Several [ask_user] calls one after the other, every send fulfilled:
    the ids they drew, in order. *)
Fixpoint ask_all (calls : list (string * string)) : tool (list string) :=
  match calls with
  | [] => mret []
  | (random36, question) :: calls' =>
      questionId ← ask_user_send random36 question;
      _ ← ask_user_settle questionId SendOk;
      ids ← ask_all calls';
      mret (questionId :: ids)
  end.

(** The ways the two parts of two [ask_user] calls can be ordered when the
    first call is made first and both messages are sent. *)
Inductive interleaving : Type :=
| FirstSettlesBeforeSecondCall
| FirstSettlesFirst
| SecondSettlesFirst.

(** Two [ask_user] calls up to the point where both callers are suspended;
    returns their resolvers. *)
Definition ask_two (i : interleaving) (random1 question1 random2 question2 : string)
  : tool (nat * nat) :=
  match i with
  | FirstSettlesBeforeSecondCall =>
      id1 ← ask_user_send random1 question1;
      resolve1 ← ask_user_settle id1 SendOk;
      id2 ← ask_user_send random2 question2;
      resolve2 ← ask_user_settle id2 SendOk;
      mret (resolve1, resolve2)
  | FirstSettlesFirst =>
      id1 ← ask_user_send random1 question1;
      id2 ← ask_user_send random2 question2;
      resolve1 ← ask_user_settle id1 SendOk;
      resolve2 ← ask_user_settle id2 SendOk;
      mret (resolve1, resolve2)
  | SecondSettlesFirst =>
      id1 ← ask_user_send random1 question1;
      id2 ← ask_user_send random2 question2;
      resolve2 ← ask_user_settle id2 SendOk;
      resolve1 ← ask_user_settle id1 SendOk;
      mret (resolve1, resolve2)
  end.

(** The state once [initializeBot] has succeeded. *)
Definition initial : state :=
  {| bot := true; pendingQuestions := ∅; lastQuestionId := None;
     next_resolver := 0; invoked := []; outbox := [] |}.

(** The engine with the ids of the [ask_user] calls that wait for their
    [sendMessage]. *)
Record system : Type := System {
  engine : state;
  in_flight : list string;
}.

(** What the event loop runs next. *)
Inductive event : Type :=
| Ask (random36 question : string)
| Sent (questionId : string)
| SendFailed (questionId e : string)
| Incoming (msg : message).

Definition is_Ask (ev : event) : bool :=
  match ev with
  | Ask _ _ => true
  | _ => false
  end.

(** One turn of the event loop. *)
Inductive step (validatedChatId : string) : system → event → system → Prop :=
| step_ask random36 question sys questionId s' :
    ask_user_send random36 question (engine sys) = (Ok questionId, s') →
    step validatedChatId sys (Ask random36 question)
      (System s' (questionId :: in_flight sys))
| step_sent sys questionId before after resolve s' :
    in_flight sys = (before ++ questionId :: after)%list →
    ask_user_settle questionId SendOk (engine sys) = (Ok resolve, s') →
    step validatedChatId sys (Sent questionId)
      (System s' (before ++ after)%list)
| step_send_failed sys questionId e before after s' :
    in_flight sys = (before ++ questionId :: after)%list →
    ask_user_settle questionId (SendError e) (engine sys) = (Throw e, s') →
    step validatedChatId sys (SendFailed questionId e)
      (System s' (before ++ after)%list)
| step_message sys msg :
    step validatedChatId sys (Incoming msg)
      (System (handleMessage validatedChatId msg (engine sys)) (in_flight sys)).

(** A run of the event loop. *)
Inductive run (validatedChatId : string) : system → list event → system → Prop :=
| run_nil sys : run validatedChatId sys [] sys
| run_cons sys ev sys' evs sys'' :
    step validatedChatId sys ev sys' →
    run validatedChatId sys' evs sys'' →
    run validatedChatId sys (ev :: evs) sys''.

Definition reachable (validatedChatId : string) (sys : system) : Prop :=
  ∃ evs, run validatedChatId (System initial []) evs sys.


(** [lastQuestionId] names no question that is pending or about to be:
    it is empty, or its id has no entry and no [ask_user] call with that
    id waits for its send. *)
Definition stale (sys : system) : Prop :=
  match lastQuestionId (engine sys) with
  | None => True
  | Some questionId =>
      pendingQuestions (engine sys) !! questionId = None
      ∧ questionId ∉ in_flight sys
  end.

(** The resolver [resolve] has not been called and is stored, if at all,
    under the empty id only. *)
Definition unanswerable (resolve : nat) (s : state) : Prop :=
  (resolve ∉ (invoked s).*1)
  ∧ resolve < next_resolver s
  ∧ ∀ questionId,
      pendingQuestions s !! questionId = Some resolve → questionId = "".

(* ================================================================= *)
(** ** The archiver *)

(** What [fs.readdirSync] and [fs.statSync] show of a directory: its
    entries in listing order, each with its name.  An entry is a regular
    file, a directory with its own entries, an entry for which
    [fs.statSync] throws [e] (a dangling link, a path it may not follow),
    or a directory for which [fs.readdirSync] throws [e]. *)
#[warnings="-register-all"]
Inductive entry : Type :=
| File (name : string)
| Directory (name : string) (files : list entry)
| NoStat (name : string) (e : string)
| NoList (name : string) (e : string).

Definition entry_name (e : entry) : string :=
  match e with
  | File name | Directory name _ | NoStat name _ | NoList name _ => name
  end.

(** [relativePath.startsWith(prefix)]. *)
Definition startsWith (relativePath prefix : string) : bool :=
  String.prefix prefix relativePath.

(** [path.relative(workingDir, path.join(dirPath, file))], for the
    directory whose own path relative to [workingDir] is [dirRel] (the
    empty string for [workingDir] itself). *)
Definition relativeTo (dirRel file : string) : string :=
  match dirRel with
  | EmptyString => file
  | _ => dirRel ++ "/" ++ file
  end.

(** The loop [for (const file of files)]: the turns are run in order, the
    names they give to [archive.file] are collected, and the first error
    thrown ends the loop.  The result holds the names given so far and
    the error, if one was thrown. *)
Fixpoint forEach {A : Type} (turn : A → list string * option string)
  (files : list A) : list string * option string :=
  match files with
  | [] => ([], None)
  | file :: files' =>
      match turn file with
      | (names, Some e) => (names, Some e)
      | (names, None) =>
          let '(names', thrown) := forEach turn files' in
          (names ++ names', thrown)%list
      end
  end.

(** One turn of the loop of [addFilesFromDirectory], in the directory at
    [dirRel], for the entry [e].  The [.git] test comes first; then
    [fs.statSync] may throw, the listing of a directory may throw, and
    [ignores], which is [ig.ignores], may throw on a path it does not
    accept. *)
Fixpoint addEntry (ignores : string → result bool) (dirRel : string)
  (e : entry) : list string * option string :=
  let relativePath := relativeTo dirRel (entry_name e) in
  if startsWith relativePath ".git" then ([], None)
  else
    match e with
    | NoStat _ err => ([], Some err)
    | Directory _ files => forEach (addEntry ignores relativePath) files
    | NoList _ err => ([], Some err)
    | File _ =>
        match ignores relativePath with
        | Throw err => ([], Some err)
        | Ok true => ([], None)
        | Ok false => ([relativePath], None)
        end
    end.

(** [addFilesFromDirectory(dirPath)] for the directory at [dirRel];
    [listing] is what [fs.readdirSync(dirPath)] returns or throws. *)
Definition addFilesFromDirectory (ignores : string → result bool)
  (dirRel : string) (listing : result (list entry))
  : list string * option string :=
  match listing with
  | Throw err => ([], Some err)
  | Ok files => forEach (addEntry ignores dirRel) files
  end.

(** The segments of a POSIX path, split at ['/']. *)
Fixpoint split_path (segment path : string) : list string :=
  match path with
  | EmptyString => [segment]
  | String c path' =>
      if Ascii.eqb c "/" then segment :: split_path EmptyString path'
      else split_path (segment ++ String c EmptyString) path'
  end.

(** [path.basename]: the last non-empty segment. *)
Definition basename (path : string) : string :=
  default "" (last (filter (fun seg => seg ≠ "") (split_path "" path))).

(** [path.join(dir, name)] for a directory written without a trailing
    separator. *)
Definition join (dir name : string) : string := dir ++ "/" ++ name.

Definition TWO_GB : N := 2 * 1024 * 1024 * 1024.

Definition size_limit_error : string :=
  "File size exceeds 2GB limit. Please implement file splitting or reduce the project size.".

(** How the promise around the [archiver] run settles: the output stream
    closed with [size] bytes written, or the archive raised [e] with
    [size] bytes written so far. *)
Inductive archive_result : Type :=
| Closed (size : N)
| ArchiveError (e : string) (size : N).

(** [zipProject]'s output path, [path.join(workingDir,
    `${projectName}-project.zip`)]. *)
Definition outputPathOf (workingDir : string) : string :=
  join workingDir (basename workingDir ++ "-project.zip").

(** [zipProject(directory)].  [cwd] is [process.cwd()]; [ig] is the
    [ignore] object once the project's [.gitignore] has been read and
    added to it, or the error thrown by reading that file; [listing] is
    the content of the working directory as the walk reads it; [archiver]
    is the run of the [archiver] package, once finalized, on the names it
    was given; [unfinished] is what is found under the output path when
    the walk has thrown and the archive is never finalized (nothing, or a
    file of that size); [files] holds the regular files outside the walk
    that the function creates, stats and unlinks, with their sizes.  An
    error thrown by the walk rejects the promise around it, and
    [zipProject] throws it on. *)
Definition zipProject (cwd : string) (ig : result (string → result bool))
  (archiver : list string → archive_result)
  (unfinished : list string → option N)
  (listing : result (list entry))
  (directory : option string) (files : gmap string N)
  : result string * gmap string N :=
  let workingDir := if truthy directory then default "" directory else cwd in
  match ig with
  | Throw err => (Throw err, files)
  | Ok ignores =>
      let outputPath := outputPathOf workingDir in
      match addFilesFromDirectory ignores "" listing with
      | (names, Some err) =>
          (Throw err,
           match unfinished names with
           | Some size => <[outputPath := size]> files
           | None => files
           end)
      | (names, None) =>
          match archiver names with
          | ArchiveError e size => (Throw e, <[outputPath := size]> files)
          | Closed size =>
              let files1 := <[outputPath := size]> files in
              if (TWO_GB <? default 0 (files1 !! outputPath))%N
              then (Throw size_limit_error, delete outputPath files1)
              else (Ok outputPath, files1)
          end
      end
  end.

(** The [zip_project] tool: [zipProject], then [bot.sendDocument] (which
    settles as [sent]) with the artifact unlinked in the [finally] block.
    The third component lists the documents handed to the bot. *)
Definition zip_project (cwd : string) (ig : result (string → result bool))
  (archiver : list string → archive_result)
  (unfinished : list string → option N)
  (listing : result (list entry)) (sent : send_result)
  (directory : option string) (s : state) (files : gmap string N)
  : result string * gmap string N * list string :=
  if negb (bot s) then (Throw "Bot not initialized", files, [])
  else
    match zipProject cwd ig archiver unfinished listing directory files with
    | (Throw e, files1) => (Throw e, files1, [])
    | (Ok zipFilePath, files1) =>
        let files2 :=
          if bool_decide (is_Some (files1 !! zipFilePath))
          then delete zipFilePath files1 else files1 in
        match sent with
        | SendOk => (Ok "Project zipped and sent successfully", files2, [zipFilePath])
        | SendError e => (Throw e, files2, [zipFilePath])
        end
    end.

(* ================================================================= *)
(** ** The other tools and the chat the bot writes to *)

(** The [notify_user] tool: the message is handed to [bot.sendMessage] as
    it is, and the tool returns once the send has settled as [sent]. *)
Definition notify_user (message : string) (sent : send_result) : tool string :=
  λ s,
  if negb (bot s) then throw "Bot not initialized" s
  else
    let s1 :=
      {| bot := bot s;
         pendingQuestions := pendingQuestions s;
         lastQuestionId := lastQuestionId s;
         next_resolver := next_resolver s;
         invoked := invoked s;
         outbox := message :: outbox s |} in
    match sent with
    | SendOk => (Ok "Notification sent successfully", s1)
    | SendError e => (Throw e, s1)
    end.

(** The white space [parseInt] skips, in ASCII: TAB, LF, VT, FF, CR and
    space. *)
Definition is_ascii_space (c : ascii) : bool :=
  let n := N_of_ascii c in
  ((9 <=? n) && (n <=? 13))%N || (n =? 32)%N.

(** The other white space and line terminators of ECMAScript, by their
    UTF-8 bytes: U+00A0, U+1680, U+2000 to U+200A, U+2028, U+2029, U+202F,
    U+205F, U+3000 and U+FEFF. *)
Definition is_space2 (c1 c2 : ascii) : bool :=
  ((N_of_ascii c1 =? 194) && (N_of_ascii c2 =? 160))%N.

Definition is_space3 (c1 c2 c3 : ascii) : bool :=
  let n1 := N_of_ascii c1 in
  let n2 := N_of_ascii c2 in
  let n3 := N_of_ascii c3 in
  ((n1 =? 225) && (n2 =? 154) && (n3 =? 128)
   || (n1 =? 226) && (n2 =? 128)
      && ((128 <=? n3) && (n3 <=? 138) || (n3 =? 168) || (n3 =? 169)
          || (n3 =? 175))
   || (n1 =? 226) && (n2 =? 129) && (n3 =? 159)
   || (n1 =? 227) && (n2 =? 128) && (n3 =? 128)
   || (n1 =? 239) && (n2 =? 187) && (n3 =? 191))%N.

(** The first step of [parseInt]: leading white space is dropped. *)
Fixpoint trimStart (s : string) : string :=
  match s with
  | EmptyString => EmptyString
  | String c1 s1 =>
      if is_ascii_space c1 then trimStart s1
      else
        match s1 with
        | String c2 s2 =>
            if is_space2 c1 c2 then trimStart s2
            else
              match s2 with
              | String c3 s3 => if is_space3 c1 c2 c3 then trimStart s3 else s
              | EmptyString => s
              end
        | EmptyString => s
        end
  end.

(** The value of a digit in the given radix, upper or lower case. *)
Definition digit_value (radix : N) (c : ascii) : option N :=
  let n := N_of_ascii c in
  let d :=
    if ((48 <=? n) && (n <=? 57))%N then Some (n - 48)%N
    else if ((97 <=? n) && (n <=? 122))%N then Some (n - 87)%N
    else if ((65 <=? n) && (n <=? 90))%N then Some (n - 55)%N
    else None in
  match d with
  | Some v => if (v <? radix)%N then Some v else None
  | None => None
  end.

(** The longest run of digits at the head of [s], as a number; [acc] is
    the value read so far, [None] when no digit has been read. *)
Fixpoint read_digits (radix : N) (acc : option N) (s : string) : option N :=
  match s with
  | EmptyString => acc
  | String c s' =>
      match digit_value radix c with
      | Some d => read_digits radix (Some (default 0 acc * radix + d)%N) s'
      | None => acc
      end
  end.

(** [parseInt(s)], without radix argument: white space, a sign, an
    optional [0x] or [0X], then the longest run of digits; [None] is [NaN].
    The integer is the Number returned as long as it is at most [2^53] in
    absolute value. *)
Definition parseInt (s : string) : option Z :=
  let s1 := trimStart s in
  let '(sign, s2) :=
    match s1 with
    | String "-" r => ((-1)%Z, r)
    | String "+" r => (1%Z, r)
    | _ => (1%Z, s1)
    end in
  let '(radix, s3) :=
    match s2 with
    | String "0" (String "x" r) => (16%N, r)
    | String "0" (String "X" r) => (16%N, r)
    | _ => (10%N, s2)
    end in
  match read_digits radix None s3 with
  | Some n => Some (sign * Z.of_N n)%Z
  | None => None
  end.

(** The first argument of every [bot.sendMessage] and [bot.sendDocument]
    call: [parseInt(validatedChatId)]. *)
Definition chatIdOf (validatedChatId : string) : option Z :=
  parseInt validatedChatId.

(** The regular files below an entry, by their paths relative to the
    working directory, in the order of the walk. *)
Fixpoint entryFiles (dirRel : string) (e : entry) : list string :=
  match e with
  | File file => [relativeTo dirRel file]
  | Directory file files => flat_map (entryFiles (relativeTo dirRel file)) files
  | NoStat _ _ | NoList _ _ => []
  end.

Definition listingFiles (dirRel : string) (files : list entry) : list string :=
  flat_map (entryFiles dirRel) files.

(** The tests a path passes to be archived. *)
Definition archivable (ignores : string → result bool) (relativePath : string)
  : bool :=
  negb (startsWith relativePath ".git")
  && match ignores relativePath with
     | Ok false => true
     | _ => false
     end.

(** What a walk has given to [archive.file], set against the files it
    was to visit: all the archivable ones when it ran to its end, an
    initial part of them when it was ended by an error. *)
Definition walked (ignores : string → result bool)
  (outcome : list string * option string) (visited : list string) : Prop :=
  (outcome.2 = None → outcome.1 = List.filter (archivable ignores) visited)
  ∧ ∃ rest, List.filter (archivable ignores) visited = (outcome.1 ++ rest)%list.



(** Every question that is pending, being sent, or named by
    [lastQuestionId] has had a text with its marker handed to the bot. *)
Definition announced (sys : system) : Prop :=
  ∀ questionId,
    is_Some (pendingQuestions (engine sys) !! questionId)
    ∨ questionId ∈ in_flight sys
    ∨ lastQuestionId (engine sys) = Some questionId →
    ∃ question, outboundText questionId question ∈ outbox (engine sys).

(* ================================================================= *)
(** * Sanity checks of the embedding *)

Example match_marker_example :
  match_marker ("#abc123" ++ String LF "What is your name?") = Some "abc123".
Proof. reflexivity. Qed.

Example match_marker_leftmost :
  match_marker ("see #x y #k9" ++ String LF ("#zz" ++ String LF "")) = Some "k9".
Proof. reflexivity. Qed.

Example match_marker_uppercase : match_marker ("#Abc" ++ String LF "") = None.
Proof. reflexivity. Qed.

Example match_marker_needs_line_feed : match_marker "#abc123 and more" = None.
Proof. reflexivity. Qed.

Example newQuestionId_example : newQuestionId "0.4fzyo82mvyr" = "82mvyr".
Proof. reflexivity. Qed.

Example basename_example : basename "/home/me/proj/" = "proj".
Proof. reflexivity. Qed.

Example addFilesFromDirectory_example :
  addFilesFromDirectory
    (λ p, Ok (String.eqb p "dist/out.js")) ""
    (Ok [ File "a.txt"; Directory "dist" [File "out.js"; File "keep.js"];
          Directory "lib" [Directory ".git" [File "HEAD"]] ])
  = (["a.txt"; "dist/keep.js"; "lib/.git/HEAD"], None).
Proof. reflexivity. Qed.

Example addFilesFromDirectory_abort :
  addFilesFromDirectory (λ _, Ok false) ""
    (Ok [ File "a.txt"; NoStat ".gitlink" "ENOENT"; NoStat "link" "ENOENT";
          File "b.txt" ])
  = (["a.txt"], Some "ENOENT").
Proof. reflexivity. Qed.

Example zip_project_walk_abort :
  zip_project "/home/me/proj" (Ok (λ _, Ok false)) (λ _, Closed 10)
    (λ _, Some 0%N) (Ok [File "a.txt"; NoStat "link" "ENOENT"]) SendOk None
    initial ∅
  = (Throw "ENOENT", <["/home/me/proj/proj-project.zip" := 0%N]> ∅, []).
Proof. reflexivity. Qed.

Example zip_project_gitignore_unreadable :
  zip_project "/home/me/proj" (Throw "EISDIR") (λ _, Closed 10)
    (λ _, None) (Ok [File "a.txt"]) SendOk None initial ∅
  = (Throw "EISDIR", ∅, []).
Proof. reflexivity. Qed.

Example chat_id_example : pretty (-1001234567890)%Z = "-1001234567890".
Proof. by vm_compute. Qed.

(* ================================================================= *)
(** * The marker pattern *)

Lemma is_id_char_LF : is_id_char LF = false.
Proof. reflexivity. Qed.

Lemma is_id_char_not_LF c : is_id_char c = true → c ≠ LF.
Proof. intros Hc ->. by rewrite is_id_char_LF in Hc. Qed.

(** The greedy run stops at the first character outside [[a-z0-9]]. *)
Lemma take_id_app tok rest :
  all_id_chars tok = true →
  (∀ c rest', rest = String c rest' → is_id_char c = false) →
  take_id (tok ++ rest) = (tok, rest).
Proof.
  intros Htok Hrest. induction tok as [|c tok IH]; simpl in *.
  - destruct rest as [|c rest']; simpl; [done|]. by rewrite (Hrest c rest').
  - apply andb_true_iff in Htok as [Hc Htok]. by rewrite Hc, IH.
Qed.

(** What the run returns: a string of [[a-z0-9]] followed by the rest. *)
Lemma take_id_spec s tok rest :
  take_id s = (tok, rest) →
  s = tok ++ rest ∧ all_id_chars tok = true
  ∧ ∀ c rest', rest = String c rest' → is_id_char c = false.
Proof.
  revert tok rest. induction s as [|c s IH]; intros tok rest; simpl.
  - intros [= <- <-]. by split.
  - destruct (is_id_char c) eqn:Hc.
    + destruct (take_id s) as [tok' rest'] eqn:Hs. intros [= <- <-].
      destruct (IH _ _ eq_refl) as (-> & Htok & Hrest).
      split; [done|]. split; [|done]. simpl. by rewrite Hc.
    + intros [= <- <-]. split; [done|]. split; [done|].
      by intros c' rest' [= <- <-].
Qed.

Lemma outboundText_unfold questionId question :
  outboundText questionId question
  = String "#" (questionId ++ String LF question).
Proof. reflexivity. Qed.

Lemma match_here_outboundText questionId question :
  id_token questionId = true →
  match_here (outboundText questionId question) = Some questionId.
Proof.
  intros Hid. rewrite outboundText_unfold. unfold match_here.
  destruct questionId as [|c tok]; [done|].
  rewrite (take_id_app (String c tok) (String LF question)); [done|done|].
  by intros c' rest' [= <- <-].
Qed.

(** The marker read back from an outbound text is the id written in it,
    whenever that id is a non-empty [[a-z0-9]] string. *)
Lemma match_marker_outboundText questionId question :
  id_token questionId = true →
  match_marker (outboundText questionId question) = Some questionId.
Proof.
  intros Hid. pose proof (match_here_outboundText _ question Hid) as Hm.
  rewrite outboundText_unfold in *.
  unfold match_marker; fold match_marker. by rewrite Hm.
Qed.

Lemma match_here_token s id : match_here s = Some id → id_token id = true.
Proof.
  unfold match_here. destruct s as [|c s]; [done|].
  destruct (Ascii.eqb_spec c "#") as [->|Hc].
  - destruct (take_id s) as [tok rest] eqn:Hs.
    destruct (take_id_spec _ _ _ Hs) as (_ & Htok & _).
    destruct tok as [|c' tok]; [done|].
    destruct rest as [|c'' rest]; [done|].
    destruct (Ascii.eqb_spec c'' LF) as [->|Hc''].
    + by intros [= <-].
    + intros H. exfalso. revert H.
      destruct c'' as [[] [] [] [] [] [] [] []]; try done.
  - intros H. exfalso. revert H.
    destruct c as [[] [] [] [] [] [] [] []]; try done.
Qed.

(** Every id the handler reads from a quoted text is a non-empty
    [[a-z0-9]] string. *)
Lemma match_marker_token s id : match_marker s = Some id → id_token id = true.
Proof.
  induction s as [|c s IH]; unfold match_marker; fold match_marker.
  - done.
  - destruct (match_here (String c s)) as [id'|] eqn:Hm.
    + intros [= <-]. by eapply match_here_token.
    + exact IH.
Qed.

Lemma match_marker_nonempty s : match_marker s ≠ Some "".
Proof. intros H. by apply match_marker_token in H. Qed.

Lemma string_app_nil s : "" ++ s = s.
Proof. reflexivity. Qed.

Lemma string_app_cons c s t : String c s ++ t = String c (s ++ t).
Proof. reflexivity. Qed.

(** At a given position the pattern matches in one way only. *)
Lemma match_here_complete id post :
  id_token id = true →
  match_here (String "#" (id ++ String LF post)) = Some id.
Proof. intros Hid. by rewrite <- outboundText_unfold, match_here_outboundText. Qed.

Lemma match_here_sound s id :
  match_here s = Some id → ∃ post, marker_at "" id post s.
Proof.
  intros Hm. pose proof (match_here_token _ _ Hm) as Hid.
  unfold match_here in Hm. destruct s as [|c s]; [done|].
  destruct (Ascii.eqb_spec c "#") as [->|Hc].
  - destruct (take_id s) as [tok rest] eqn:Hs.
    destruct (take_id_spec _ _ _ Hs) as (-> & _ & _).
    destruct tok as [|c' tok]; [done|].
    destruct rest as [|c'' rest]; [done|].
    destruct (Ascii.eqb_spec c'' LF) as [->|Hc''].
    + injection Hm as <-. by exists rest.
    + exfalso. revert Hm.
      destruct c'' as [[] [] [] [] [] [] [] []]; try done.
  - exfalso. revert Hm.
    destruct c as [[] [] [] [] [] [] [] []]; try done.
Qed.

(** [match_marker] returns the capture of the leftmost match. *)
Lemma match_marker_sound s id :
  match_marker s = Some id →
  ∃ pre post,
    marker_at pre id post s
    ∧ ∀ pre' id' post',
        marker_at pre' id' post' s →
        (String.length pre ≤ String.length pre')%nat
        ∧ (String.length pre = String.length pre' → id' = id).
Proof.
  revert id. induction s as [|c s IH]; intros id;
    unfold match_marker; fold match_marker.
  - done.
  - destruct (match_here (String c s)) as [id0|] eqn:Hm.
    + intros [= <-].
      destruct (match_here_sound _ _ Hm) as [post H].
      exists "", post. split; [exact H|].
      intros pre' id' post' [Hs' Hid']. split; [simpl; lia|].
      destruct pre' as [|c' pre']; [|done]. intros _.
      rewrite Hs', string_app_nil, match_here_complete in Hm by done.
      congruence.
    + intros Hs. destruct (IH _ Hs) as (pre & post & [-> Hid] & Hleft).
      exists (String c pre), post. split; [by split|].
      intros pre' id' post' [Hs' Hid'].
      destruct pre' as [|c' pre'].
      * rewrite Hs', string_app_nil, match_here_complete in Hm by done.
        discriminate Hm.
      * rewrite !string_app_cons in Hs'. injection Hs' as -> Hs'.
        destruct (Hleft pre' id' post') as [Hle Heq]; [by split|].
        simpl. split; [lia|]. intros Hlen. apply Heq. lia.
Qed.

(** It returns [null] only when the pattern matches nowhere. *)
Lemma match_marker_complete pre id post s :
  marker_at pre id post s → is_Some (match_marker s).
Proof.
  intros [-> Hid]. induction pre as [|c pre IH].
  - rewrite string_app_nil. unfold match_marker; fold match_marker.
    rewrite match_here_complete by done. by eexists.
  - rewrite string_app_cons. unfold match_marker; fold match_marker.
    destruct (match_here (String c _)); [by eexists|done].
Qed.

(* ================================================================= *)
(** * The message handler *)

Lemma truthy_true v : truthy v = true → ∃ c t, v = Some (String c t).
Proof. destruct v as [[|c t]|]; simpl; try done. eauto. Qed.

Lemma truthy_nonempty t : t ≠ "" → truthy (Some t) = true.
Proof. by destruct t. Qed.

Lemma questionId_of_reply_token msg questionId :
  questionId_of_reply msg = Some questionId → id_token questionId = true.
Proof.
  unfold questionId_of_reply.
  destruct (truthy _); [apply match_marker_token|done].
Qed.

(** A marker in the replied-to text takes precedence over
    [lastQuestionId]. *)
Lemma questionId_of_threaded msg s questionId :
  questionId_of_reply msg = Some questionId →
  questionId_of msg s = Some questionId.
Proof.
  intros H. unfold questionId_of. rewrite H.
  apply questionId_of_reply_token in H. by destruct questionId.
Qed.

(** Without one, the target is [lastQuestionId]. *)
Lemma questionId_of_unthreaded msg s :
  questionId_of_reply msg = None → questionId_of msg s = lastQuestionId s.
Proof. intros H. unfold questionId_of. by rewrite H. Qed.

Section Handler.
Variable validatedChatId : string.
Implicit Types (s : state) (msg : message).

(** The branch of [handleMessage] that resolves a question. *)
Lemma handleMessage_resolves msg s answer questionId resolve :
  pretty (chat_id msg) = validatedChatId →
  text msg = Some answer → answer ≠ "" →
  questionId_of msg s = Some questionId → questionId ≠ "" →
  pendingQuestions s !! questionId = Some resolve →
  handleMessage validatedChatId msg s
  = resolve_question questionId resolve answer s.
Proof.
  intros Hchat Htext Hanswer Hid Hne Hpending. unfold handleMessage.
  rewrite Hchat, String.eqb_refl, Htext, (truthy_nonempty _ Hanswer), Hid,
    (truthy_nonempty _ Hne). simpl. by rewrite Hpending.
Qed.

(** [handleMessage] either leaves the state alone or takes that branch. *)
Lemma handleMessage_inv msg s :
  handleMessage validatedChatId msg s = s
  ∨ ∃ questionId resolve answer,
      pretty (chat_id msg) = validatedChatId
      ∧ text msg = Some answer ∧ answer ≠ ""
      ∧ questionId_of msg s = Some questionId ∧ questionId ≠ ""
      ∧ pendingQuestions s !! questionId = Some resolve
      ∧ handleMessage validatedChatId msg s
        = resolve_question questionId resolve answer s.
Proof.
  unfold handleMessage.
  destruct (String.eqb_spec (pretty (chat_id msg)) validatedChatId)
    as [Hchat|]; simpl; [|by left].
  destruct (truthy (text msg)) eqn:Htext; simpl; [|by left].
  destruct (truthy (questionId_of msg s)) eqn:Hid; [|by left].
  apply truthy_true in Htext as (c & t & Htext).
  apply truthy_true in Hid as (c' & t' & Hid).
  rewrite Htext, Hid. simpl.
  destruct (pendingQuestions s !! String c' t') as [resolve|] eqn:Hp;
    [|by left].
  right. exists (String c' t'), resolve, (String c t).
  by repeat split.
Qed.

(** A message that is not from the configured chat is ignored. *)
Lemma handleMessage_unauthorized msg s :
  pretty (chat_id msg) ≠ validatedChatId →
  handleMessage validatedChatId msg s = s.
Proof.
  intros Hchat. unfold handleMessage.
  by destruct (String.eqb_spec (pretty (chat_id msg)) validatedChatId).
Qed.

(** A message whose target id is not pending is ignored. *)
Lemma handleMessage_no_entry msg s questionId :
  questionId_of msg s = Some questionId →
  pendingQuestions s !! questionId = None →
  handleMessage validatedChatId msg s = s.
Proof.
  intros Hid Hp. destruct (handleMessage_inv msg s)
    as [H|(q & r & a & _ & _ & _ & Hq & _ & Hr & _)]; [done|].
  congruence.
Qed.

(** A message without a target id is ignored. *)
Lemma handleMessage_no_target msg s :
  questionId_of msg s = None →
  handleMessage validatedChatId msg s = s.
Proof.
  intros Hid. destruct (handleMessage_inv msg s)
    as [H|(q & r & a & _ & _ & _ & Hq & _)]; [done|]. congruence.
Qed.

End Handler.

(* ================================================================= *)
(** * Resolving a question: [lastQuestionId] and the order in [ask_user] *)

(** Two questions asked one after the other from the initial state; their
    ids are ["82mvyr"] and ["7bq2d"], and [lastQuestionId] is the
    second. *)
Example two_questions_pending :
  let s := snd (ask_two FirstSettlesBeforeSecondCall
                  "0.4fzyo82mvyr" "First?" "0.k3x9a7bq2d" "Second?" initial) in
  pendingQuestions s !! "82mvyr" = Some 0
  ∧ pendingQuestions s !! "7bq2d" = Some 1
  ∧ lastQuestionId s = Some "7bq2d".
Proof. by vm_compute. Qed.

(** C1, as stated, does not hold: a reply threaded to the first of two
    pending questions removes that question's entry and also resets
    [lastQuestionId], which held the id of the second one. *)
Lemma lastQuestionId_not_kept_for_other_id :
  ¬ (∀ validatedChatId msg s questionId,
       is_Some (pendingQuestions s !! questionId) →
       pendingQuestions (handleMessage validatedChatId msg s) !! questionId = None →
       lastQuestionId s ≠ Some questionId →
       lastQuestionId (handleMessage validatedChatId msg s) = lastQuestionId s).
Proof.
  intros H.
  specialize (H "42"
    (Message 42 (Some "Ada") (Some (Reply (Some (outboundText "82mvyr" "First?")))))
    (snd (ask_two FirstSettlesBeforeSecondCall
            "0.4fzyo82mvyr" "First?" "0.k3x9a7bq2d" "Second?" initial))
    "82mvyr").
  assert (Hlast : Some "7bq2d" = @None string); [|discriminate Hlast].
  symmetry. apply H.
  - exists 0. by vm_compute.
  - by vm_compute.
  - by vm_compute.
Qed.

(** What follows from it: after that threaded reply, a reply without
    thread no longer reaches the second question, which stays pending. *)
Example unthreaded_reply_after_threaded_one :
  let s := snd (ask_two FirstSettlesBeforeSecondCall
                  "0.4fzyo82mvyr" "First?" "0.k3x9a7bq2d" "Second?" initial) in
  let s1 := handleMessage "42"
              (Message 42 (Some "Ada")
                 (Some (Reply (Some (outboundText "82mvyr" "First?"))))) s in
  let s2 := handleMessage "42" (Message 42 (Some "Bob") None) s1 in
  s2 = s1 ∧ pendingQuestions s2 !! "7bq2d" = Some 1
  ∧ invoked s2 = [(0, "Ada")].
Proof. by vm_compute. Qed.

Section Resolution.
Variable validatedChatId : string.
Implicit Types (s : state) (msg : message).

(** C1 (amended).  For every engine state and every inbound message that
    resolves a pending question (its entry is there before and gone
    after), [handleMessage] leaves [lastQuestionId] cleared, whether or
    not the resolved id was the current [lastQuestionId]; the resolved
    entry is the only one removed. *)
Theorem handleMessage_resolve_clears_lastQuestionId msg s questionId :
  is_Some (pendingQuestions s !! questionId) →
  pendingQuestions (handleMessage validatedChatId msg s) !! questionId = None →
  lastQuestionId (handleMessage validatedChatId msg s) = None
  ∧ pendingQuestions (handleMessage validatedChatId msg s)
    = delete questionId (pendingQuestions s).
Proof.
  intros [resolve Hbefore] Hafter.
  destruct (handleMessage_inv validatedChatId msg s)
    as [Hsame|(q & r & a & _ & _ & _ & _ & _ & Hq & Heq)].
  - rewrite Hsame in Hafter. congruence.
  - rewrite Heq in *. simpl in *. split; [done|].
    destruct (decide (q = questionId)) as [->|Hne]; [done|].
    rewrite lookup_delete_ne in Hafter by done. congruence.
Qed.

(** C3.  Whatever else is pending and whatever [lastQuestionId] holds, a
    message from the configured chat with text ["Ada"] that replies to
    ["#abc123\nWhat is your name?"] calls the resolver stored under
    ["abc123"] with ["Ada"], calls no other resolver, and removes that
    entry and no other. *)
Theorem threaded_reply_resolves_abc123 msg s resolve :
  pendingQuestions s !! "abc123" = Some resolve →
  pretty (chat_id msg) = validatedChatId →
  text msg = Some "Ada" →
  reply_to_message msg ≫= reply_text
  = Some (outboundText "abc123" "What is your name?") →
  invoked (handleMessage validatedChatId msg s) = (resolve, "Ada") :: invoked s
  ∧ pendingQuestions (handleMessage validatedChatId msg s)
    = delete "abc123" (pendingQuestions s)
  ∧ pendingQuestions (handleMessage validatedChatId msg s) !! "abc123" = None
  ∧ ∀ other, other ≠ "abc123" →
      pendingQuestions (handleMessage validatedChatId msg s) !! other
      = pendingQuestions s !! other.
Proof.
  intros Hpending Hchat Htext Hquoted.
  assert (Hid : questionId_of msg s = Some "abc123").
  { apply questionId_of_threaded. unfold questionId_of_reply.
    by rewrite Hquoted. }
  rewrite (handleMessage_resolves validatedChatId msg s "Ada" "abc123" resolve)
    by done.
  simpl. split; [done|]. split; [done|]. split.
  - apply lookup_delete_eq.
  - intros other Hother. by apply lookup_delete_ne.
Qed.

End Resolution.

(** Witness of [handleMessage_resolve_clears_lastQuestionId]: the reply
    threaded to ["82mvyr"] while [lastQuestionId] is ["7bq2d"]. *)
Lemma handleMessage_resolve_clears_lastQuestionId_witness :
  let s := snd (ask_two FirstSettlesBeforeSecondCall
                  "0.4fzyo82mvyr" "First?" "0.k3x9a7bq2d" "Second?" initial) in
  let msg := Message 42 (Some "Ada")
               (Some (Reply (Some (outboundText "82mvyr" "First?")))) in
  lastQuestionId s = Some "7bq2d"
  ∧ lastQuestionId (handleMessage "42" msg s) = None
  ∧ pendingQuestions (handleMessage "42" msg s)
    = delete "82mvyr" (pendingQuestions s).
Proof.
  intros s msg. split; [by vm_compute|].
  apply (handleMessage_resolve_clears_lastQuestionId "42" msg s "82mvyr").
  - exists 0. by vm_compute.
  - by vm_compute.
Defined.

(** Witness of [threaded_reply_resolves_abc123]: two other questions are
    pending and [lastQuestionId] names one of them. *)
Lemma threaded_reply_resolves_abc123_witness :
  let s := {| bot := true;
              pendingQuestions := <["zz9" := 2]> (<["abc123" := 1]> {["k0" := 0]});
              lastQuestionId := Some "zz9";
              next_resolver := 3; invoked := [];
              outbox := [] |} in
  let msg := Message 42 (Some "Ada")
               (Some (Reply (Some (outboundText "abc123" "What is your name?")))) in
  invoked (handleMessage "42" msg s) = [(1, "Ada")]
  ∧ pendingQuestions (handleMessage "42" msg s) = delete "abc123" (pendingQuestions s)
  ∧ pendingQuestions (handleMessage "42" msg s) !! "abc123" = None
  ∧ ∀ other, other ≠ "abc123" →
      pendingQuestions (handleMessage "42" msg s) !! other
      = pendingQuestions s !! other.
Proof.
  intros s msg.
  apply (threaded_reply_resolves_abc123 "42" msg s 1); by vm_compute.
Defined.

(** C2, as stated, does not hold: at the moment [ask_user] has handed its
    text to the bot ([ask_user_send] has run, the send is awaited),
    [pendingQuestions] has no entry for the new id. *)
Lemma entry_absent_when_text_is_sent :
  ¬ (∀ random36 question s questionId s1,
       ask_user_send random36 question s = (Ok questionId, s1) →
       is_Some (pendingQuestions s1 !! questionId)).
Proof.
  intros H.
  destruct (H "0.4fzyo82mvyr" "First?" initial "82mvyr"
              {| bot := true; pendingQuestions := ∅;
                 lastQuestionId := Some "82mvyr"; next_resolver := 0;
                 invoked := [];
                 outbox := [outboundText "82mvyr" "First?"] |} eq_refl)
    as [resolve Hentry].
  vm_compute in Hentry. discriminate Hentry.
Qed.

Section AskUser.
Implicit Types (s : state).

(** C2 (amended).  In every execution of [ask_user] with the bot
    initialised, the composed text is handed to the bot first, with
    [pendingQuestions] as it was before the call; the entry for the new
    id, holding the caller's resolver, is inserted once the send has
    been fulfilled, and is not inserted when the send is rejected. *)
Theorem ask_user_inserts_after_send random36 question s :
  bot s = true →
  let questionId := newQuestionId random36 in
  ∃ s1,
    ask_user_send random36 question s = (Ok questionId, s1)
    ∧ outbox s1 = outboundText questionId question :: outbox s
    ∧ pendingQuestions s1 = pendingQuestions s
    ∧ (∀ e, ask_user random36 question (SendError e) s = (Throw e, s1))
    ∧ ∃ s2,
        ask_user random36 question SendOk s = (Ok (next_resolver s), s2)
        ∧ pendingQuestions s2
          = <[questionId := next_resolver s]> (pendingQuestions s)
        ∧ outbox s2 = outbox s1.
Proof.
  intros Hbot questionId.
  unfold ask_user, mbind, tool_bind, ask_user_send, ask_user_settle, throw.
  rewrite Hbot. simpl. eexists. split; [reflexivity|]. simpl.
  split; [done|]. split; [done|]. split; [done|].
  eexists. split; [reflexivity|]. by simpl.
Qed.

End AskUser.

(** Witness of [ask_user_inserts_after_send]: the first question asked. *)
Lemma ask_user_inserts_after_send_witness :
  ∃ s1,
    ask_user_send "0.4fzyo82mvyr" "First?" initial = (Ok "82mvyr", s1)
    ∧ outbox s1 = [outboundText "82mvyr" "First?"]
    ∧ pendingQuestions s1 = ∅
    ∧ (∀ e, ask_user "0.4fzyo82mvyr" "First?" (SendError e) initial
            = (Throw e, s1))
    ∧ ∃ s2,
        ask_user "0.4fzyo82mvyr" "First?" SendOk initial = (Ok 0, s2)
        ∧ pendingQuestions s2 = <["82mvyr" := 0]> ∅
        ∧ outbox s2 = outbox s1.
Proof.
  apply (ask_user_inserts_after_send "0.4fzyo82mvyr" "First?" initial).
  reflexivity.
Defined.

(* ================================================================= *)
(** * Replies without a thread *)

Section Fallback.
Variable validatedChatId : string.
Implicit Types (s : state) (msg : message).







End Fallback.



(* ================================================================= *)
(** * Resolvers are called at most once *)




Lemma ask_user_settle_throw questionId sent s e s' :
  ask_user_settle questionId sent s = (Throw e, s') → s' = s.
Proof. unfold ask_user_settle, throw. destruct sent; congruence. Qed.










Section AtMostOnce.
Variable validatedChatId : string.
Implicit Types (s : state) (msg : message) (sys : system).


End AtMostOnce.



(* ================================================================= *)
(** * A send that fails *)

Section FailedSend.
Variable validatedChatId : string.
Implicit Types (s : state) (msg : message) (sys : system).

(** Until the next [ask_user] call, [lastQuestionId] stays stale:
    settled sends store other ids, messages only delete entries and
    reset [lastQuestionId]. *)
Lemma step_stale sys ev sys' :
  step validatedChatId sys ev sys' →
  is_Ask ev = false → stale sys → stale sys'.
Proof.
  intros Hstep Hev. destruct Hstep as
    [ random36 question sys questionId s' Hsend
    | sys questionId before after resolve s' Hwait Hsettle
    | sys questionId e before after s' Hwait Hsettle
    | sys msg ]; [done| | |].
  - unfold stale, ask_user_settle in *. injection Hsettle as <- <-. simpl.
    destruct (lastQuestionId (engine sys)) as [last|]; [|done].
    rewrite Hwait. intros [Hnone Hnotin].
    rewrite elem_of_app, elem_of_cons in Hnotin. split.
    + rewrite lookup_insert_ne; [done|]. intros <-. tauto.
    + rewrite elem_of_app. tauto.
  - rewrite (ask_user_settle_throw _ _ _ _ _ Hsettle).
    unfold stale. simpl.
    destruct (lastQuestionId (engine sys)) as [last|]; [|done].
    rewrite Hwait, !elem_of_app, elem_of_cons. tauto.
  - unfold stale. simpl.
    destruct (handleMessage_inv validatedChatId msg (engine sys))
      as [->|(q & r & a & _ & _ & _ & _ & _ & _ & ->)]; [done|].
    by simpl.
Qed.

Lemma run_stale sys evs sys' :
  run validatedChatId sys evs sys' →
  Forall (λ ev, is_Ask ev = false) evs → stale sys → stale sys'.
Proof.
  induction 1 as [|sys ev sys' evs sys'' Hstep _ IH]; [done|].
  intros [Hev Hevs]%Forall_cons Hs. apply IH; [done|].
  by eapply step_stale.
Qed.

(** With a stale [lastQuestionId], a reply without thread is ignored. *)
Lemma handleMessage_stale sys msg :
  stale sys → questionId_of_reply msg = None →
  handleMessage validatedChatId msg (engine sys) = engine sys.
Proof.
  unfold stale. intros Hs Hreply.
  destruct (lastQuestionId (engine sys)) as [last|] eqn:Hlast.
  - apply handleMessage_no_entry with last; [|tauto].
    by rewrite questionId_of_unthreaded.
  - apply handleMessage_no_target. by rewrite questionId_of_unthreaded.
Qed.

(** C10 (amended).  [ask_user] is called with an id that is not pending
    (and that no other call is sending), and its send is rejected.  The error is
    thrown to the caller; [lastQuestionId] holds the new id although
    [pendingQuestions] is what it was before the call.  From then on,
    whatever messages arrive and whichever earlier sends settle, as long
    as [ask_user] is not called again every message without a marker to
    read is ignored, so no question is resolved by fallback. *)
Theorem failed_send_disables_fallback random36 question e s waiting :
  bot s = true →
  pendingQuestions s !! newQuestionId random36 = None →
  newQuestionId random36 ∉ waiting →
  ∃ s1,
    ask_user random36 question (SendError e) s = (Throw e, s1)
    ∧ lastQuestionId s1 = Some (newQuestionId random36)
    ∧ pendingQuestions s1 = pendingQuestions s
    ∧ ∀ evs sys msg,
        run validatedChatId (System s1 waiting) evs sys →
        Forall (λ ev, is_Ask ev = false) evs →
        questionId_of_reply msg = None →
        handleMessage validatedChatId msg (engine sys) = engine sys.
Proof.
  intros Hbot Hfresh Hwaiting.
  unfold ask_user, mbind, tool_bind, ask_user_send, ask_user_settle, throw.
  rewrite Hbot. simpl. eexists. split; [reflexivity|]. simpl.
  split; [done|]. split; [done|].
  intros evs sys msg Hrun Hevs Hreply.
  apply handleMessage_stale; [|done].
  eapply run_stale; [done..|]. by unfold stale.
Qed.

End FailedSend.

(** C10, as stated, does not hold: the call whose send fails has drawn
    the id of a question that is pending.  [lastQuestionId] then names
    that entry, and a plain message is not discarded: it calls the
    resolver of the earlier question. *)
Lemma failed_send_with_pending_id_keeps_fallback :
  ¬ (∀ validatedChatId random36 question e s s1 msg,
       bot s = true →
       ask_user random36 question (SendError e) s = (Throw e, s1) →
       questionId_of_reply msg = None →
       handleMessage validatedChatId msg s1 = s1).
Proof.
  intros H.
  pose (s := snd (ask_user "0.4fzyo82mvyr" "First?" SendOk initial)).
  pose (s1 := snd (ask_user "0.9k2ab82mvyr" "Second?" (SendError "ETELEGRAM") s)).
  specialize (H "42" "0.9k2ab82mvyr" "Second?" "ETELEGRAM" s s1
                (Message 42 (Some "Ada") None)).
  assert (Hfalse : handleMessage "42" (Message 42 (Some "Ada") None) s1 = s1)
    by (apply H; by vm_compute).
  apply (f_equal invoked) in Hfalse. vm_compute in Hfalse.
  discriminate Hfalse.
Qed.

(** Witness of [failed_send_disables_fallback]: a question is pending,
    the next call's send fails. *)
Lemma failed_send_disables_fallback_witness :
  let s := snd (ask_user "0.4fzyo82mvyr" "First?" SendOk initial) in
  ∃ s1,
    ask_user "0.k3x9a7bq2d" "Second?" (SendError "ETELEGRAM") s
    = (Throw "ETELEGRAM", s1)
    ∧ lastQuestionId s1 = Some "7bq2d"
    ∧ pendingQuestions s1 = pendingQuestions s
    ∧ ∀ evs sys msg,
        run "42" (System s1 []) evs sys →
        Forall (λ ev, is_Ask ev = false) evs →
        questionId_of_reply msg = None →
        handleMessage "42" msg (engine sys) = engine sys.
Proof.
  intros s.
  apply (failed_send_disables_fallback "42" "0.k3x9a7bq2d" "Second?"
           "ETELEGRAM" s []).
  - reflexivity.
  - by vm_compute.
  - apply not_elem_of_nil.
Defined.

(* ================================================================= *)
(** * The ids drawn by [ask_user] *)

(** C6, as stated, does not hold: two draws that agree after their
    seventh character give the same id, and nothing compares a new id
    with the ids in [pendingQuestions].  Here the second call draws the
    id under which the first question is pending. *)
Lemma drawn_id_may_be_pending :
  ¬ (∀ random36 question s questionId s1,
       ask_user_send random36 question s = (Ok questionId, s1) →
       pendingQuestions s !! questionId = None)
  ∧ ¬ (∀ calls s ids s',
         ask_all calls s = (Ok ids, s') → NoDup ids).
Proof.
  split.
  - intros H.
    specialize (H "0.9k2ab82mvyr" "Second?"
      (snd (ask_user "0.4fzyo82mvyr" "First?" SendOk initial)) "82mvyr"
      _ eq_refl).
    vm_compute in H. discriminate H.
  - intros H.
    specialize (H [("0.4fzyo82mvyr", "First?"); ("0.9k2ab82mvyr", "Second?")]
      initial ["82mvyr"; "82mvyr"] _ eq_refl).
    apply NoDup_cons in H as [Hin _]. apply Hin. by left.
Qed.

Section Ids.
Implicit Types (s : state).

Lemma ask_all_ids calls s :
  bot s = true →
  ∃ s',
    ask_all calls s = (Ok (map (λ call, substring 7 (fst call)) calls), s')
    ∧ bot s' = true
    ∧ (∀ questionId,
         questionId ∈ map (λ call, substring 7 (fst call)) calls →
         is_Some (pendingQuestions s' !! questionId))
    ∧ ∀ questionId,
        is_Some (pendingQuestions s !! questionId) →
        is_Some (pendingQuestions s' !! questionId).
Proof.
  revert s. induction calls as [|[random36 question] calls IH]; intros s Hbot.
  - exists s. repeat split; try done. by intros q Hq%elem_of_nil.
  - unfold ask_all; fold ask_all.
    unfold mbind, mret, tool_bind, tool_ret, ask_user_send, ask_user_settle.
    rewrite Hbot. simpl.
    match goal with |- context [ask_all calls ?s1] =>
      destruct (IH s1 eq_refl) as (s' & -> & Hbot' & Hnew & Hold) end.
    exists s'. split; [done|]. split; [done|]. split.
    + intros q [->|Hq]%elem_of_cons; [|by apply Hnew].
      apply Hold. simpl. unfold newQuestionId.
      rewrite lookup_insert_eq. by eexists.
    + intros q Hq. apply Hold. simpl.
      rewrite lookup_insert. case_decide; [by eexists|done].
Qed.

(** C6 (amended).  For every sequence of N [ask_user] calls, the ids are
    what the random numerals leave after their seventh character, and
    nothing else: they do not depend on [pendingQuestions].  They are
    pairwise distinct whenever those remainders are, and then each of
    them is a key of [pendingQuestions] once the calls are suspended. *)
Theorem ask_all_ids_distinct calls s :
  bot s = true →
  NoDup (map (λ call, substring 7 (fst call)) calls) →
  ∃ ids s',
    ask_all calls s = (Ok ids, s')
    ∧ ids = map (λ call, substring 7 (fst call)) calls
    ∧ NoDup ids
    ∧ ∀ questionId, questionId ∈ ids →
        is_Some (pendingQuestions s' !! questionId).
Proof.
  intros Hbot Hdistinct.
  destruct (ask_all_ids calls s Hbot) as (s' & Hrun & _ & Hnew & _).
  by exists (map (λ call, substring 7 (fst call)) calls), s'.
Qed.

End Ids.

(** Witness of [ask_all_ids_distinct]: three calls with three different
    remainders. *)
Lemma ask_all_ids_distinct_witness :
  ∃ ids s',
    ask_all [("0.4fzyo82mvyr", "First?"); ("0.k3x9a7bq2d", "Second?");
             ("0.00000x", "Third?")] initial
    = (Ok ids, s')
    ∧ ids = ["82mvyr"; "7bq2d"; "x"]
    ∧ NoDup ids
    ∧ ∀ questionId, questionId ∈ ids →
        is_Some (pendingQuestions s' !! questionId).
Proof.
  apply (ask_all_ids_distinct
           [("0.4fzyo82mvyr", "First?"); ("0.k3x9a7bq2d", "Second?");
            ("0.00000x", "Third?")] initial).
  - reflexivity.
  - apply (bool_decide_unpack _). by vm_compute.
Defined.

(** A numeral of at most seven characters, that is at most five digits
    after the radix point, leaves nothing for the id. *)
Lemma newQuestionId_short random36 :
  (String.length random36 ≤ 7)%nat → newQuestionId random36 = "".
Proof.
  unfold newQuestionId. generalize 7. intros n. revert random36.
  induction n as [|n IH]; intros [|c random36]; simpl; try done; try lia.
  intros Hlen. apply IH. lia.
Qed.

(** The digits of a radix-36 numeral are [[a-z0-9]] characters. *)
Lemma digit36_id_char c : is_Some (digit36 c) → is_id_char c = true.
Proof.
  intros [d Hd]. revert Hd.
  destruct c as [[] [] [] [] [] [] [] []]; vm_compute; congruence.
Qed.

Lemma fraction36_id_chars ds : is_Some (fraction36 ds) → all_id_chars ds = true.
Proof.
  induction ds as [|c ds IH]; [done|]. simpl.
  destruct (digit36 c) as [d|] eqn:Hd; [|by intros [? ?]].
  destruct (fraction36 ds) as [q|]; [|by intros [? ?]].
  intros _. rewrite digit36_id_char by by eexists. by rewrite IH.
Qed.

Lemma substring_id_chars n s :
  all_id_chars s = true → all_id_chars (substring n s) = true.
Proof.
  revert s. induction n as [|n IH]; intros [|c s]; simpl; try done.
  intros [_ Hs]%andb_true_iff. by apply IH.
Qed.

(** Whatever numeral [Math.random().toString(36)] gives, the id holds
    [[a-z0-9]] characters only; it can only fail to be a token by being
    empty. *)
Lemma newQuestionId_id_chars random36 :
  is_Some (value36 random36) → all_id_chars (newQuestionId random36) = true.
Proof.
  unfold value36, newQuestionId.
  destruct random36 as [|c0 [|c1 ds]]; try by intros [? ?].
  destruct (Ascii.eqb_spec c0 "0") as [->|Hc0];
    [|destruct c0 as [[] [] [] [] [] [] [] []]; try done; by intros [? ?]].
  destruct (Ascii.eqb_spec c1 ".") as [->|Hc1];
    [|destruct c1 as [[] [] [] [] [] [] [] []]; try done; by intros [? ?]].
  destruct ds as [|c ds]; [by intros [? ?]|].
  intros Hds%fraction36_id_chars.
  change (substring 7 (String "0" (String "." (String c ds))))
    with (substring 5 (String c ds)).
  by apply substring_id_chars.
Qed.

(** So every id that is not empty is read back from the text it was sent
    in. *)
Lemma newQuestionId_round_trip random36 question :
  is_Some (value36 random36) →
  newQuestionId random36 ≠ "" →
  match_marker (outboundText (newQuestionId random36) question)
  = Some (newQuestionId random36).
Proof.
  intros Hnum Hne. apply match_marker_outboundText.
  pose proof (newQuestionId_id_chars _ Hnum) as Hchars.
  by destruct (newQuestionId random36).
Qed.

(** A question stored under the empty id stays unanswered: messages only
    resolve non-empty ids, and later calls store other resolvers. *)
Lemma step_unanswerable validatedChatId resolve sys ev sys' :
  step validatedChatId sys ev sys' →
  unanswerable resolve (engine sys) → unanswerable resolve (engine sys').
Proof.
  intros Hstep (Hcalled & Hcreated & Hkey).
  destruct Hstep as
    [ random36 question sys questionId s' Hsend
    | sys questionId before after resolve' s' Hwait Hsettle
    | sys questionId e before after s' Hwait Hsettle
    | sys msg ]; simpl.
  - unfold ask_user_send, throw in Hsend.
    destruct (bot (engine sys)); [|done]. by injection Hsend as <- <-.
  - unfold ask_user_settle in Hsettle. injection Hsettle as <- <-.
    split; [done|]. split; [simpl; lia|]. simpl.
    intros k. rewrite lookup_insert. case_decide; [|by apply Hkey].
    intros [= Heq]. lia.
  - by rewrite (ask_user_settle_throw _ _ _ _ _ Hsettle).
  - destruct (handleMessage_inv validatedChatId msg (engine sys))
      as [->|(q & r & a & _ & _ & _ & _ & Hne & Hq & ->)]; [done|].
    split; [|split; [done|]]; simpl.
    + rewrite not_elem_of_cons. split; [|done].
      intros ->. by apply Hne, Hkey.
    + intros k [_ Hk]%lookup_delete_Some. by apply Hkey.
Qed.

Lemma run_unanswerable validatedChatId resolve sys evs sys' :
  run validatedChatId sys evs sys' →
  unanswerable resolve (engine sys) → unanswerable resolve (engine sys').
Proof.
  induction 1 as [|sys ev sys' evs sys'' Hstep _ IH]; [done|].
  intros Hs. apply IH. by eapply step_unanswerable.
Qed.

(** C7 fails on the code when [Math.random()] returns one half, whose
    radix-36 numeral is ["0.i"]: the id is the empty string and the text
    sent is ["#\nWhat is your name?"], in which the handler's pattern
    finds no marker.  The question is stored under the empty id, and
    however the event loop runs on, with whatever messages, threaded or
    not, its resolver is never called. *)
Theorem empty_id_is_never_resolved :
  let s := snd (ask_user "0.i" "What is your name?" SendOk initial) in
  (∃ q, value36 "0.i" = Some q ∧ (q == 1 # 2)%Q)
  ∧ newQuestionId "0.i" = ""
  ∧ outbox s = [String "#" (String LF "What is your name?")]
  ∧ match_marker (outboundText (newQuestionId "0.i") "What is your name?") = None
  ∧ pendingQuestions s !! "" = Some 0
  ∧ ∀ validatedChatId evs sys,
      run validatedChatId (System s []) evs sys →
      0 ∉ (invoked (engine sys)).*1.
Proof.
  intros s. split; [|split; [|split; [|split; [|split]]]]; try by vm_compute.
  - eexists. split; [reflexivity|]. by vm_compute.
  - intros validatedChatId evs sys Hrun.
    apply (run_unanswerable _ 0) in Hrun; [apply Hrun|].
    assert (Hs : pendingQuestions s = {[ "" := 0 ]}) by by vm_compute.
    unfold unanswerable. cbn [engine]. rewrite Hs.
    split; [apply not_elem_of_nil|]. split; [simpl; lia|].
    by intros k [<- _]%lookup_singleton_Some.
Qed.

(* ================================================================= *)
(** * The archive *)

(** Induction on a directory tree, with the hypothesis for every entry of
    a directory. *)
Lemma entry_nested_ind (P : entry → Prop) :
  (∀ name, P (File name)) →
  (∀ name files, Forall P files → P (Directory name files)) →
  (∀ name e, P (NoStat name e)) →
  (∀ name e, P (NoList name e)) →
  ∀ e, P e.
Proof.
  intros HFile HDirectory HNoStat HNoList. fix IH 1.
  intros [name|name files|name e|name e].
  - apply HFile.
  - apply HDirectory.
    induction files as [|e files IHfiles]; constructor; [apply IH|apply IHfiles].
  - apply HNoStat.
  - apply HNoList.
Qed.

(** A name collected by the loop was given by one of its turns. *)
Lemma forEach_elem {A : Type} (turn : A → list string * option string) files p :
  p ∈ (forEach turn files).1 → ∃ file, file ∈ files ∧ p ∈ (turn file).1.
Proof.
  induction files as [|file files IH]; simpl.
  - by intros ?%elem_of_nil.
  - destruct (turn file) as [names [e|]] eqn:Hturn; simpl.
    + intros Hp. exists file. rewrite Hturn. split; [by left|done].
    + destruct (forEach turn files) as [names' thrown]. simpl.
      intros [Hp|Hp]%elem_of_app.
      * exists file. rewrite Hturn. split; [by left|done].
      * destruct (IH Hp) as (file' & Hin & Hp'). exists file'.
        split; [by right|done].
Qed.

Section Archive.
Variables (cwd : string) (ignores : string → result bool)
          (archiver : list string → archive_result)
          (unfinished : list string → option N).
Implicit Types (s : state) (files : gmap string N).

(** The size check of [zipProject]: an artifact larger than [TWO_GB] is
    unlinked and the size-limit error is thrown. *)
Lemma zipProject_oversized listing directory files size :
  (addFilesFromDirectory ignores "" listing).2 = None →
  archiver (addFilesFromDirectory ignores "" listing).1 = Closed size →
  (TWO_GB < size)%N →
  zipProject cwd (Ok ignores) archiver unfinished listing directory files
  = (Throw size_limit_error,
     delete (outputPathOf (if truthy directory then default "" directory
                           else cwd)) files).
Proof.
  intros Hwalk Harchive Hsize. unfold zipProject.
  destruct (addFilesFromDirectory ignores "" listing) as [names thrown].
  simpl in *. subst thrown. rewrite Harchive.
  rewrite lookup_insert_eq. simpl.
  apply N.ltb_lt in Hsize. rewrite Hsize. by rewrite delete_insert_eq.
Qed.

(** C8.  Whenever the archive run closes with an artifact of more than
    2 GiB, [zip_project] throws the size-limit error to its caller,
    hands no document to the bot, and the artifact has been unlinked:
    no file is left at the output path, and no other file is touched. *)
Theorem zip_project_oversized listing sent directory s files size :
  bot s = true →
  (addFilesFromDirectory ignores "" listing).2 = None →
  archiver (addFilesFromDirectory ignores "" listing).1 = Closed size →
  (TWO_GB < size)%N →
  let outputPath :=
    outputPathOf (if truthy directory then default "" directory else cwd) in
  ∃ files',
    zip_project cwd (Ok ignores) archiver unfinished listing sent directory s files
    = (Throw size_limit_error, files', [])
    ∧ files' !! outputPath = None
    ∧ ∀ other, other ≠ outputPath → files' !! other = files !! other.
Proof.
  intros Hbot Hwalk Harchive Hsize outputPath. unfold zip_project.
  rewrite Hbot, (zipProject_oversized _ _ _ size) by done. simpl.
  eexists. split; [reflexivity|]. split.
  - apply lookup_delete_eq.
  - intros other Hother. by apply lookup_delete_ne.
Qed.

(** The loop of [addFilesFromDirectory] skips every entry of the working
    directory whose name begins with [.git], whatever it is, with all
    that is below it. *)
Lemma addEntry_git_prefix e :
  startsWith (entry_name e) ".git" = true →
  addEntry ignores "" e = ([], None).
Proof. destruct e; simpl; by intros ->. Qed.

End Archive.

(** Witness of [zip_project_oversized]: the archiver reports 3 GiB. *)
Lemma zip_project_oversized_witness :
  ∃ files',
    zip_project "/home/me/proj" (Ok (λ _, Ok false))
      (λ _, Closed (3 * 1024 * 1024 * 1024)) (λ _, None)
      (Ok [File "README.md"]) SendOk None initial ∅
    = (Throw size_limit_error, files', [])
    ∧ files' !! "/home/me/proj/proj-project.zip" = None
    ∧ ∀ other, other ≠ "/home/me/proj/proj-project.zip" →
        files' !! other = (∅ : gmap string N) !! other.
Proof.
  apply (zip_project_oversized "/home/me/proj" (λ _, Ok false)
           (λ _, Closed (3 * 1024 * 1024 * 1024)) (λ _, None)
           (Ok [File "README.md"]) SendOk None initial ∅
           (3 * 1024 * 1024 * 1024)).
  - reflexivity.
  - reflexivity.
  - reflexivity.
  - by vm_compute.
Defined.

(** Every name given to [archive.file] has itself passed the two tests of
    the loop: it does not begin with [.git] and the ignore rules do not
    match it. *)
Lemma addEntry_archived ignores e :
  ∀ dirRel p, p ∈ (addEntry ignores dirRel e).1 →
    startsWith p ".git" = false ∧ ignores p = Ok false.
Proof.
  induction e as [name|name files IH|name err|name err] using entry_nested_ind;
    intros dirRel p; simpl;
    (destruct (startsWith _ _) eqn:Hgit; [by intros ?%elem_of_nil|]).
  - destruct (ignores _) as [err|[]] eqn:Hig; simpl;
      [by intros ?%elem_of_nil..|].
    by intros ->%list_elem_of_singleton.
  - intros (e & He & Hp)%forEach_elem.
    rewrite Forall_forall in IH. by eapply IH.
  - by intros ?%elem_of_nil.
  - by intros ?%elem_of_nil.
Qed.

(** C9 fails on the code for a project that holds [.github/workflows/ci.yml]
    and [.gitattributes] and whose ignore rules match nothing: both files
    are left out of the artifact, although they are neither matched by the
    ignore rules nor inside the [.git] directory.  The test
    [relativePath.startsWith('.git')] holds for them too, and for every
    project no path that begins with [.git] is ever archived. *)
Theorem addFilesFromDirectory_skips_git_prefixed_names :
  addFilesFromDirectory (λ _, Ok false) ""
    (Ok [ Directory ".git" [File "HEAD"];
          Directory ".github" [Directory "workflows" [File "ci.yml"]];
          File ".gitattributes";
          File "README.md";
          Directory "src" [File "index.ts"] ])
  = (["README.md"; "src/index.ts"], None)
  ∧ ∀ ignores listing p,
      p ∈ (addFilesFromDirectory ignores "" listing).1 →
      startsWith p ".git" = false.
Proof.
  split; [reflexivity|]. unfold addFilesFromDirectory.
  intros ignores [err|files] p; simpl; [by intros ?%elem_of_nil|].
  intros (e & _ & Hp)%forEach_elem.
  by destruct (addEntry_archived ignores e "" p Hp).
Qed.

(* ================================================================= *)
(** * More on the message handler *)

Section HandlerMore.
Variable validatedChatId : string.
Implicit Types (s : state) (msg : message).

(** X1.  A message changes the engine only when it comes from the configured
    chat and has a non-empty text; then one resolver is called, with that
    very text, its entry and no other is deleted, and nothing is sent. *)
Theorem only_operator_text_resolves msg s :
  handleMessage validatedChatId msg s ≠ s →
  pretty (chat_id msg) = validatedChatId
  ∧ ∃ questionId resolve answer,
      text msg = Some answer ∧ answer ≠ ""
      ∧ pendingQuestions s !! questionId = Some resolve
      ∧ invoked (handleMessage validatedChatId msg s)
        = (resolve, answer) :: invoked s
      ∧ pendingQuestions (handleMessage validatedChatId msg s)
        = delete questionId (pendingQuestions s)
      ∧ outbox (handleMessage validatedChatId msg s) = outbox s
      ∧ next_resolver (handleMessage validatedChatId msg s) = next_resolver s.
Proof.
  intros Hchanged.
  destruct (handleMessage_inv validatedChatId msg s)
    as [Hsame|(q & r & a & Hchat & Htext & Ha & _ & _ & Hq & Heq)]; [done|].
  split; [done|]. exists q, r, a. by rewrite Heq.
Qed.


(** X3.  A reply that quotes the text of a question reaches that question: for
    every numeral drawn that leaves a non-empty id, whatever the question
    body holds (other markers included), whatever [lastQuestionId] is and
    whatever else is pending, the resolver stored under that id is called
    with the reply's text. *)
Theorem threaded_reply_reaches_its_question
    random36 question msg s answer resolve :
  is_Some (value36 random36) →
  newQuestionId random36 ≠ "" →
  pendingQuestions s !! newQuestionId random36 = Some resolve →
  pretty (chat_id msg) = validatedChatId →
  text msg = Some answer → answer ≠ "" →
  reply_to_message msg ≫= reply_text
  = Some (outboundText (newQuestionId random36) question) →
  handleMessage validatedChatId msg s
  = resolve_question (newQuestionId random36) resolve answer s.
Proof.
  intros Hnum Hne Hpending Hchat Htext Hanswer Hquoted.
  apply handleMessage_resolves; try done.
  apply questionId_of_threaded. unfold questionId_of_reply.
  rewrite Hquoted.
  change (truthy (Some (outboundText (newQuestionId random36) question)))
    with true.
  by apply newQuestionId_round_trip.
Qed.


(** X5.  A plain message that arrives while the question is still being sent
    is dropped, not kept: when the send settles, the question is pending
    and its resolver has not been called. *)
Theorem early_reply_is_dropped random36 question msg s :
  bot s = true →
  pendingQuestions s !! newQuestionId random36 = None →
  questionId_of_reply msg = None →
  ∃ s1 s2,
    ask_user_send random36 question s = (Ok (newQuestionId random36), s1)
    ∧ handleMessage validatedChatId msg s1 = s1
    ∧ ask_user_settle (newQuestionId random36) SendOk
        (handleMessage validatedChatId msg s1)
      = (Ok (next_resolver s), s2)
    ∧ pendingQuestions s2 !! newQuestionId random36 = Some (next_resolver s)
    ∧ invoked s2 = invoked s.
Proof.
  intros Hbot Hfresh Hreply.
  unfold ask_user_send. rewrite Hbot. simpl. do 2 eexists.
  split; [reflexivity|].
  assert (Hdrop : ∀ s1,
    lastQuestionId s1 = Some (newQuestionId random36) →
    pendingQuestions s1 = pendingQuestions s →
    handleMessage validatedChatId msg s1 = s1).
  { intros s1 Hlast Hsame.
    apply handleMessage_no_entry with (newQuestionId random36).
    - by rewrite questionId_of_unthreaded.
    - by rewrite Hsame. }
  rewrite Hdrop by done. split; [done|].
  unfold ask_user_settle. simpl. split; [reflexivity|]. simpl.
  split; [apply lookup_insert_eq|done].
Qed.

(** X6.  Once a message has resolved a question, no plain message resolves
    anything until [ask_user] is called again, whatever is still pending
    and whichever sends settle in between. *)
Theorem resolution_disables_fallback msg0 s waiting evs sys msg :
  handleMessage validatedChatId msg0 s ≠ s →
  run validatedChatId (System (handleMessage validatedChatId msg0 s) waiting)
    evs sys →
  Forall (λ ev, is_Ask ev = false) evs →
  questionId_of_reply msg = None →
  handleMessage validatedChatId msg (engine sys) = engine sys.
Proof.
  intros Hchanged Hrun Hevs Hreply.
  apply handleMessage_stale; [|done].
  eapply run_stale; [done..|].
  destruct (handleMessage_inv validatedChatId msg0 s)
    as [Hsame|(q & r & a & _ & _ & _ & _ & _ & _ & Heq)]; [done|].
  unfold stale. by rewrite Heq.
Qed.

End HandlerMore.

(** A plain answer to the second of two pending questions. *)
Lemma only_operator_text_resolves_witness :
  let s := snd (ask_two FirstSettlesBeforeSecondCall
                  "0.4fzyo82mvyr" "First?" "0.k3x9a7bq2d" "Second?" initial) in
  let msg := Message 42 (Some "Ada") None in
  pretty (chat_id msg) = "42"
  ∧ ∃ questionId resolve answer,
      text msg = Some answer ∧ answer ≠ ""
      ∧ pendingQuestions s !! questionId = Some resolve
      ∧ invoked (handleMessage "42" msg s) = (resolve, answer) :: invoked s
      ∧ pendingQuestions (handleMessage "42" msg s)
        = delete questionId (pendingQuestions s)
      ∧ outbox (handleMessage "42" msg s) = outbox s
      ∧ next_resolver (handleMessage "42" msg s) = next_resolver s.
Proof.
  intros s msg. apply (only_operator_text_resolves "42" msg s).
  intros H. apply (f_equal lastQuestionId) in H. vm_compute in H.
  discriminate H.
Defined.

(** The question body holds a marker of its own; the reply still reaches
    the question it quotes, not the one [lastQuestionId] names. *)
Lemma threaded_reply_reaches_its_question_witness :
  let s := snd (ask_two FirstSettlesBeforeSecondCall
                  "0.4fzyo82mvyr" "First?" "0.k3x9a7bq2d" "Second?" initial) in
  let body := "Is " ++ outboundText "7bq2d" "this a marker?" in
  let msg := Message 42 (Some "Ada")
               (Some (Reply (Some (outboundText "82mvyr" body)))) in
  handleMessage "42" msg s = resolve_question "82mvyr" 0 "Ada" s.
Proof.
  intros s body msg.
  apply (threaded_reply_reaches_its_question "42" "0.4fzyo82mvyr" body msg s
           "Ada" 0); try by vm_compute.
  eexists. reflexivity.
Defined.


Lemma early_reply_is_dropped_witness :
  let msg := Message 42 (Some "Ada") None in
  ∃ s1 s2,
    ask_user_send "0.4fzyo82mvyr" "First?" initial = (Ok "82mvyr", s1)
    ∧ handleMessage "42" msg s1 = s1
    ∧ ask_user_settle "82mvyr" SendOk (handleMessage "42" msg s1) = (Ok 0, s2)
    ∧ pendingQuestions s2 !! "82mvyr" = Some 0
    ∧ invoked s2 = [].
Proof.
  intros msg.
  apply (early_reply_is_dropped "42" "0.4fzyo82mvyr" "First?" msg initial);
    by vm_compute.
Defined.

(** The first of two questions is answered by a threaded reply; the second
    can then no longer be answered by a plain message. *)
Lemma resolution_disables_fallback_witness :
  let s := snd (ask_two FirstSettlesBeforeSecondCall
                  "0.4fzyo82mvyr" "First?" "0.k3x9a7bq2d" "Second?" initial) in
  let msg0 := Message 42 (Some "Ada")
                (Some (Reply (Some (outboundText "82mvyr" "First?")))) in
  pendingQuestions (handleMessage "42" msg0 s) !! "7bq2d" = Some 1
  ∧ ∀ evs sys msg,
      run "42" (System (handleMessage "42" msg0 s) []) evs sys →
      Forall (λ ev, is_Ask ev = false) evs →
      questionId_of_reply msg = None →
      handleMessage "42" msg (engine sys) = engine sys.
Proof.
  intros s msg0. split; [by vm_compute|]. intros evs sys msg.
  apply (resolution_disables_fallback "42" msg0 s [] evs sys msg).
  intros H. apply (f_equal lastQuestionId) in H. vm_compute in H.
  discriminate H.
Defined.

(* ================================================================= *)
(** * More on ids and markers *)

(** X7.  For every numeral [Math.random().toString(36)] can give, the id is
    read back from the text it is sent in exactly when it is not empty,
    whatever the question body is. *)
Theorem generated_id_read_back_iff random36 question :
  is_Some (value36 random36) →
  match_marker (outboundText (newQuestionId random36) question)
  = Some (newQuestionId random36)
  ↔ newQuestionId random36 ≠ "".
Proof.
  intros Hnum. split.
  - intros Hread Hempty. rewrite Hempty in Hread.
    by apply match_marker_nonempty in Hread.
  - by apply newQuestionId_round_trip.
Qed.

Lemma generated_id_read_back_iff_witness :
  match_marker (outboundText (newQuestionId "0.k3x9a7bq2d") "Second?")
  = Some (newQuestionId "0.k3x9a7bq2d")
  ↔ newQuestionId "0.k3x9a7bq2d" ≠ "".
Proof.
  apply (generated_id_read_back_iff "0.k3x9a7bq2d" "Second?").
  eexists. reflexivity.
Defined.

(** X8.  What the handler reads from a quoted text is the id of the leftmost
    marker in it: a ['#'], a non-empty run of [[a-z0-9]] and a line feed.
    It reads nothing exactly when the text holds no marker. *)
Theorem marker_read_is_leftmost s :
  (∀ id,
     match_marker s = Some id
     ↔ ∃ pre post,
         marker_at pre id post s
         ∧ ∀ pre' id' post',
             marker_at pre' id' post' s →
             (String.length pre ≤ String.length pre')%nat)
  ∧ (match_marker s = None ↔ ¬ ∃ pre id post, marker_at pre id post s).
Proof.
  split.
  - intros id. split.
    + intros (pre & post & Hat & Hleft)%match_marker_sound.
      exists pre, post. split; [done|].
      intros pre' id' post' Hat'. by apply (Hleft pre' id' post').
    + intros (pre & post & Hat & Hleft).
      destruct (match_marker_complete _ _ _ _ Hat) as [id0 Hid0].
      rewrite Hid0. f_equal.
      destruct (match_marker_sound _ _ Hid0) as (pre0 & post0 & Hat0 & Hleft0).
      destruct (Hleft0 pre id post Hat) as [Hle Heq].
      symmetry. apply Heq. pose proof (Hleft pre0 id0 post0 Hat0). lia.
  - split.
    + intros Hnone (pre & id & post & Hat).
      destruct (match_marker_complete _ _ _ _ Hat) as [id0 Hid0]. congruence.
    + intros Hno. destruct (match_marker s) as [id|] eqn:Hm; [|done].
      exfalso. apply Hno.
      destruct (match_marker_sound _ _ Hm) as (pre & post & Hat & _).
      by exists pre, id, post.
Qed.

(* ================================================================= *)
(** * Two calls that draw the same id *)



(* ================================================================= *)
(** * Questions are sent before they are pending *)

Lemma step_announced validatedChatId sys ev sys' :
  step validatedChatId sys ev sys' → announced sys → announced sys'.
Proof.
  intros Hstep Hsys.
  destruct Hstep as
    [ random36 question sys questionId s' Hsend
    | sys questionId before after resolve s' Hwait Hsettle
    | sys questionId e before after s' Hwait Hsettle
    | sys msg ]; intros k; simpl.
  - unfold ask_user_send, throw in Hsend.
    destruct (bot (engine sys)); [|done]. injection Hsend as <- <-. simpl.
    intros [Hk|[[->|Hk]%elem_of_cons|[= <-]]].
    + destruct (Hsys k) as [q Hq]; [by left|]. exists q. by right.
    + exists question. by left.
    + destruct (Hsys k) as [q Hq]; [by right; left|]. exists q. by right.
    + exists question. by left.
  - unfold ask_user_settle in Hsettle. injection Hsettle as <- <-. simpl.
    rewrite lookup_insert. intros [Hk|[Hk|Hk]].
    + case_decide as Heq.
      * subst k. apply Hsys. right; left. rewrite Hwait.
        rewrite elem_of_app, elem_of_cons. tauto.
      * apply Hsys. by left.
    + apply Hsys. right; left. rewrite Hwait.
      rewrite elem_of_app, elem_of_cons. rewrite elem_of_app in Hk. tauto.
    + apply Hsys. by right; right.
  - rewrite (ask_user_settle_throw _ _ _ _ _ Hsettle).
    intros [Hk|[Hk|Hk]].
    + apply Hsys. by left.
    + apply Hsys. right; left. rewrite Hwait.
      rewrite elem_of_app, elem_of_cons. rewrite elem_of_app in Hk. tauto.
    + apply Hsys. by right; right.
  - destruct (handleMessage_inv validatedChatId msg (engine sys))
      as [->|(q & r & a & _ & _ & _ & _ & _ & _ & ->)]; [apply Hsys|].
    simpl. intros [[x [_ Hk]%lookup_delete_Some]|[Hk|Hk]]; [| |done].
    + apply Hsys. left. by exists x.
    + apply Hsys. by right; left.
Qed.

(** X10.  In every state the event loop reaches, each id that is pending, each
    id of a call whose send is under way and the id in [lastQuestionId]
    has had a text that begins with its marker handed to the bot. *)
Theorem pending_questions_were_sent validatedChatId sys :
  reachable validatedChatId sys → announced sys.
Proof.
  intros [evs Hrun].
  assert (Hinit : announced (System initial [])).
  { intros k [[x Hx]|[Hk|Hk]]; simpl in *.
    - by rewrite lookup_empty in Hx.
    - by apply elem_of_nil in Hk.
    - done. }
  induction Hrun as [|sys0 ev sys1 evs sys2 Hstep _ IH]; [done|].
  apply IH. by eapply step_announced.
Qed.

(** Two questions asked and sent, the second answered: a state the event
    loop reaches. *)
Lemma reachable_example :
  reachable "42"
    (System
       (handleMessage "42" (Message 42 (Some "Ada") None)
          (snd (ask_two FirstSettlesBeforeSecondCall
                  "0.4fzyo82mvyr" "First?" "0.k3x9a7bq2d" "Second?" initial)))
       []).
Proof.
  exists [Ask "0.4fzyo82mvyr" "First?"; Sent "82mvyr";
          Ask "0.k3x9a7bq2d" "Second?"; Sent "7bq2d";
          Incoming (Message 42 (Some "Ada") None)].
  eapply run_cons; [by eapply step_ask|].
  eapply run_cons; [by eapply (step_sent _ _ "82mvyr" [] [])|].
  eapply run_cons; [by eapply step_ask|].
  eapply run_cons; [by eapply (step_sent _ _ "7bq2d" [] [])|].
  eapply run_cons; [eapply step_message|].
  apply run_nil.
Qed.

Lemma pending_questions_were_sent_witness :
  announced
    (System
       (handleMessage "42" (Message 42 (Some "Ada") None)
          (snd (ask_two FirstSettlesBeforeSecondCall
                  "0.4fzyo82mvyr" "First?" "0.k3x9a7bq2d" "Second?" initial)))
       []).
Proof.
  apply (pending_questions_were_sent "42"). apply reachable_example.
Defined.

(* ================================================================= *)
(** * Notifications *)

Section Notify.
Variable validatedChatId : string.
Implicit Types (s : state) (msg : message).

(** X11.  [notify_user] sends its message unchanged and leaves the questions
    alone.  A reply of the operator to such a notification, whose text
    holds no marker, is handled as a plain message is: if
    [lastQuestionId] holds a non-empty id that is pending, the resolver
    of that question is called with the reply's text; in every other
    case the reply is dropped. *)
Theorem reply_to_notification_goes_to_lastQuestionId message sent msg s answer :
  bot s = true →
  match_marker message = None →
  pretty (chat_id msg) = validatedChatId →
  text msg = Some answer → answer ≠ "" →
  reply_to_message msg ≫= reply_text = Some message →
  let s1 := snd (notify_user message sent s) in
  outbox s1 = message :: outbox s
  ∧ pendingQuestions s1 = pendingQuestions s
  ∧ lastQuestionId s1 = lastQuestionId s
  ∧ handleMessage validatedChatId msg s1
    = match lastQuestionId s with
      | Some (String c id as questionId) =>
          match pendingQuestions s !! questionId with
          | Some resolve => resolve_question questionId resolve answer s1
          | None => s1
          end
      | _ => s1
      end.
Proof.
  intros Hbot Hmarker Hchat Htext Hanswer Hquoted s1.
  assert (Hs1 : s1 = {| bot := bot s;
                        pendingQuestions := pendingQuestions s;
                        lastQuestionId := lastQuestionId s;
                        next_resolver := next_resolver s;
                        invoked := invoked s;
                        outbox := message :: outbox s |}).
  { unfold s1, notify_user. rewrite Hbot. by destruct sent. }
  rewrite Hs1. simpl. do 3 (split; [done|]). rewrite <- Hs1.
  assert (Hplain : questionId_of msg s1 = lastQuestionId s).
  { rewrite questionId_of_unthreaded; [by rewrite Hs1|].
    unfold questionId_of_reply. rewrite Hquoted.
    by destruct (truthy (Some message)). }
  destruct (lastQuestionId s) as [[|c id]|] eqn:Hlast.
  - destruct (handleMessage_inv validatedChatId msg s1)
      as [Hsame|(q & r & a & _ & _ & _ & Hq & Hne & _)]; [done|]. congruence.
  - destruct (pendingQuestions s !! String c id) as [resolve|] eqn:Hp.
    + apply handleMessage_resolves; try done. by rewrite Hs1.
    + apply handleMessage_no_entry with (String c id); [done|].
      by rewrite Hs1.
  - by apply handleMessage_no_target.
Qed.

End Notify.

(** A question is pending and is the last one asked: the reply to the
    notification answers it. *)
Lemma reply_to_notification_goes_to_lastQuestionId_witness :
  let s := snd (ask_user "0.4fzyo82mvyr" "First?" SendOk initial) in
  let msg := Message 42 (Some "Ada") (Some (Reply (Some "Build finished"))) in
  let s1 := snd (notify_user "Build finished" SendOk s) in
  outbox s1 = "Build finished" :: outbox s
  ∧ pendingQuestions s1 = pendingQuestions s
  ∧ lastQuestionId s1 = lastQuestionId s
  ∧ handleMessage "42" msg s1 = resolve_question "82mvyr" 0 "Ada" s1.
Proof.
  intros s msg.
  apply (reply_to_notification_goes_to_lastQuestionId "42" "Build finished"
           SendOk msg s "Ada"); by vm_compute.
Defined.

(* ================================================================= *)
(** * The chat written to and the chat listened to *)

Example parseInt_examples :
  parseInt "123456789" = Some 123456789%Z
  ∧ parseInt "-1001234567890" = Some (-1001234567890)%Z
  ∧ parseInt "  +42abc" = Some 42%Z
  ∧ parseInt "0123" = Some 123%Z
  ∧ parseInt "0x1f" = Some 31%Z
  ∧ parseInt "abc" = None
  ∧ parseInt "" = None.
Proof. by vm_compute. Qed.

Lemma pretty_N_char_digit d :
  (d < 10)%N → digit_value 10 (pretty_N_char d) = Some d.
Proof.
  intros Hd.
  assert (d = 0 ∨ d = 1 ∨ d = 2 ∨ d = 3 ∨ d = 4 ∨ d = 5 ∨ d = 6 ∨ d = 7
          ∨ d = 8 ∨ d = 9)%N as Hcases by lia.
  repeat (destruct Hcases as [->|Hcases]; [reflexivity|]). by subst.
Qed.

(** The decimal numeral of a positive number begins with a digit from 1
    to 9. *)
Lemma pretty_N_go_head x s :
  (0 < x)%N →
  ∃ d rest, (0 < d < 10)%N ∧ pretty_N_go x s = String (pretty_N_char d) rest.
Proof.
  revert s. induction (N.lt_wf_0 x) as [x _ IH]. intros s Hx.
  rewrite pretty_N_go_step by done.
  destruct (decide (x < 10)%N) as [Hsmall|Hbig].
  - rewrite N.div_small, pretty_N_go_0, N.mod_small by done.
    exists x, s. split; [lia|done].
  - apply IH.
    + apply N.div_lt; lia.
    + apply N.div_str_pos. lia.
Qed.

(** Reading a decimal numeral gives the number back. *)
Lemma read_digits_pretty_N_go x s :
  (0 < x)%N →
  read_digits 10 None (pretty_N_go x s) = read_digits 10 (Some x) s.
Proof.
  revert s. induction (N.lt_wf_0 x) as [x _ IH]. intros s Hx.
  rewrite pretty_N_go_step by done.
  destruct (decide (x < 10)%N) as [Hsmall|Hbig].
  - rewrite N.div_small, pretty_N_go_0, N.mod_small by done.
    simpl. by rewrite pretty_N_char_digit.
  - rewrite IH.
    + simpl. rewrite pretty_N_char_digit by (apply N.mod_lt; lia).
      simpl. do 2 f_equal. rewrite (N.div_mod x 10) at 3 by lia. lia.
    + apply N.div_lt; lia.
    + apply N.div_str_pos. lia.
Qed.

(** A string whose first byte begins no white space is not trimmed. *)
Lemma trimStart_head c rest :
  is_ascii_space c = false →
  (∀ c2, is_space2 c c2 = false) →
  (∀ c2 c3, is_space3 c c2 c3 = false) →
  trimStart (String c rest) = String c rest.
Proof.
  intros H1 H2 H3. cbn [trimStart]. rewrite H1.
  destruct rest as [|c2 [|c3 rest]]; rewrite ?H2, ?H3; done.
Qed.

(** A numeral that begins with a digit from 1 to 9 is read as it is: no
    white space, no sign, no hexadecimal prefix. *)
Lemma parseInt_head d rest :
  (0 < d < 10)%N →
  parseInt (String (pretty_N_char d) rest)
  = Z.of_N <$> read_digits 10 None (String (pretty_N_char d) rest)
  ∧ parseInt (String "-" (String (pretty_N_char d) rest))
    = Z.opp <$> (Z.of_N <$> read_digits 10 None (String (pretty_N_char d) rest)).
Proof.
  intros Hd.
  assert (d = 1 ∨ d = 2 ∨ d = 3 ∨ d = 4 ∨ d = 5 ∨ d = 6 ∨ d = 7
          ∨ d = 8 ∨ d = 9)%N as Hcases by lia.
  repeat (destruct Hcases as [->|Hcases]); try subst d;
    cbv [pretty_N_char]; unfold parseInt;
    rewrite !trimStart_head by (intros; reflexivity);
    cbv beta iota zeta;
    match goal with
    | |- context [read_digits ?r ?a ?s] =>
        destruct (read_digits r a s) as [n|]
    end; split; simpl; f_equal; lia.
Qed.

(** [parseInt] undoes [toString] on integers. *)
Lemma parseInt_pretty (z : Z) : parseInt (pretty z) = Some z.
Proof.
  destruct z as [|p|p]; [reflexivity| |].
  - change (pretty (Z.pos p)) with (pretty_N_go (N.pos p) "").
    destruct (pretty_N_go_head (N.pos p) "") as (d & rest & Hd & Hhead);
      [lia|].
    pose proof (read_digits_pretty_N_go (N.pos p) "" ltac:(lia)) as Hread.
    rewrite Hhead in *.
    destruct (parseInt_head d rest Hd) as [-> _]. by rewrite Hread.
  - change (pretty (Z.neg p)) with (String "-" (pretty_N_go (N.pos p) "")).
    destruct (pretty_N_go_head (N.pos p) "") as (d & rest & Hd & Hhead);
      [lia|].
    pose proof (read_digits_pretty_N_go (N.pos p) "" ltac:(lia)) as Hread.
    rewrite Hhead in *.
    destruct (parseInt_head d rest Hd) as [_ ->]. by rewrite Hread.
Qed.

(** X12.  Whoever is heard is the chat written to: a message changes the engine
    only if its chat id, an integer a Number holds exactly, is the one
    [parseInt(validatedChatId)] gives to [bot.sendMessage]. *)
Theorem accepted_sender_is_addressed_chat validatedChatId msg s :
  (Z.abs (chat_id msg) ≤ 2 ^ 53)%Z →
  handleMessage validatedChatId msg s ≠ s →
  chatIdOf validatedChatId = Some (chat_id msg).
Proof.
  intros _ Hchanged.
  destruct (handleMessage_inv validatedChatId msg s)
    as [Hsame|(q & r & a & Hchat & _)]; [done|].
  rewrite <- Hchat. apply parseInt_pretty.
Qed.

Lemma accepted_sender_is_addressed_chat_witness :
  chatIdOf "-1001234567890" = Some (-1001234567890)%Z.
Proof.
  apply (accepted_sender_is_addressed_chat "-1001234567890"
           (Message (-1001234567890) (Some "Ada") None)
           (snd (ask_user "0.4fzyo82mvyr" "First?" SendOk initial))).
  - by vm_compute.
  - intros H. apply (f_equal lastQuestionId) in H. vm_compute in H.
    discriminate H.
Defined.

(** X13.  The converse fails for a chat id that is not written as [toString]
    writes it (leading zeros, a plus sign, white space, text after the
    digits): the bot writes to the chat [parseInt] reads from it, and
    every message of that chat is ignored. *)
Theorem noncanonical_chat_id_hears_nothing validatedChatId z msg s :
  chatIdOf validatedChatId = Some z →
  validatedChatId ≠ pretty z →
  chat_id msg = z →
  handleMessage validatedChatId msg s = s.
Proof.
  intros _ Hne Hz. apply handleMessage_unauthorized. by rewrite Hz.
Qed.

Lemma noncanonical_chat_id_hears_nothing_witness :
  let s := snd (ask_user "0.4fzyo82mvyr" "First?" SendOk initial) in
  let msg := Message 123456789 (Some "Ada") None in
  handleMessage " 123456789" msg s = s.
Proof.
  intros s msg.
  apply (noncanonical_chat_id_hears_nothing " 123456789" 123456789 msg s);
    by vm_compute.
Defined.

(* ================================================================= *)
(** * More on the archive *)

Lemma prefix_app p a b :
  String.prefix p a = true → String.prefix p (a ++ b) = true.
Proof.
  revert a. induction p as [|c p IH].
  - intros a _. by destruct (a ++ b).
  - intros [|c' a]; [done|]. rewrite string_app_cons. simpl.
    destruct (ascii_dec c c'); [apply IH|done].
Qed.

(** Below a path that begins with [.git], every path does. *)
Lemma entryFiles_git_prefix e :
  ∀ dirRel p,
    startsWith dirRel ".git" = true →
    p ∈ entryFiles dirRel e → startsWith p ".git" = true.
Proof.
  assert (Hrel : ∀ dirRel file,
    startsWith dirRel ".git" = true →
    startsWith (relativeTo dirRel file) ".git" = true).
  { intros [|c dirRel] file; [done|]. unfold startsWith, relativeTo.
    apply prefix_app. }
  induction e as [name|name files IH|name err|name err] using entry_nested_ind;
    intros dirRel p Hgit; simpl.
  - intros ->%list_elem_of_singleton. by apply Hrel.
  - intros Hin. apply list_elem_of_In, in_flat_map in Hin as (e & He & Hp).
    apply list_elem_of_In in He, Hp. rewrite Forall_forall in IH.
    eapply IH; [done| |done]. by apply Hrel.
  - by intros ?%elem_of_nil.
  - by intros ?%elem_of_nil.
Qed.

Lemma filter_none {A : Type} (f : A → bool) (l : list A) :
  (∀ x, x ∈ l → f x = false) → List.filter f l = [].
Proof.
  induction l as [|x l IH]; [done|]. intros Hl. simpl.
  rewrite (Hl x) by by left. apply IH. intros y Hy. apply Hl. by right.
Qed.

Lemma forEach_walked {A : Type} ignores
    (turn : A → list string * option string) (below : A → list string) files :
  Forall (λ file, walked ignores (turn file) (below file)) files →
  walked ignores (forEach turn files) (flat_map below files).
Proof.
  unfold walked.
  induction 1 as [|file files [Hend [rest Hrest]] _ [IHend [rest' IHrest]]].
  - split; [done|]. by exists [].
  - cbn [forEach flat_map]. rewrite List.filter_app.
    destruct (turn file) as [names [e|]]; simpl in *.
    + split; [done|]. rewrite Hrest. eexists.
      by rewrite <- (assoc_L (++)%list).
    + rewrite (Hend eq_refl).
      destruct (forEach turn files) as [names' thrown]. simpl in *.
      split.
      * intros ->. by rewrite IHend.
      * exists rest'. by rewrite IHrest, (assoc_L (++)%list).
Qed.

Lemma addEntry_walked ignores e :
  ∀ dirRel, walked ignores (addEntry ignores dirRel e) (entryFiles dirRel e).
Proof.
  assert (Hskip : ∀ e0 dirRel,
    startsWith (relativeTo dirRel (entry_name e0)) ".git" = true →
    walked ignores ([], None) (entryFiles dirRel e0)).
  { intros e0 dirRel Hgit.
    assert (List.filter (archivable ignores) (entryFiles dirRel e0) = [])
      as Hnone.
    { apply filter_none. intros p Hp. unfold archivable.
      destruct e0 as [name|name files|name err|name err]; simpl in *.
      - apply list_elem_of_singleton in Hp as ->. by rewrite Hgit.
      - apply list_elem_of_In, in_flat_map in Hp as (e1 & _ & Hp).
        apply list_elem_of_In in Hp.
        by rewrite (entryFiles_git_prefix e1 (relativeTo dirRel name) p).
      - by apply elem_of_nil in Hp.
      - by apply elem_of_nil in Hp. }
    split; simpl; [by rewrite Hnone|]. exists []. by rewrite Hnone. }
  induction e as [name|name files IH|name err|name err] using entry_nested_ind;
    intros dirRel.
  - destruct (startsWith (relativeTo dirRel name) ".git") eqn:Hgit.
    { pose proof (Hskip (File name) dirRel Hgit) as H.
      simpl in *. by rewrite Hgit. }
    simpl. rewrite Hgit. unfold walked, archivable. simpl. rewrite Hgit.
    destruct (ignores _) as [err|[]]; simpl; (split; [done|by exists []]).
  - destruct (startsWith (relativeTo dirRel name) ".git") eqn:Hgit.
    { pose proof (Hskip (Directory name files) dirRel Hgit) as H.
      simpl in *. by rewrite Hgit. }
    simpl. rewrite Hgit. apply forEach_walked.
    eapply Forall_impl; [exact IH|]. intros e He. apply He.
  - destruct (startsWith (relativeTo dirRel name) ".git") eqn:Hgit;
      simpl; rewrite Hgit; (split; [done|by exists []]).
  - destruct (startsWith (relativeTo dirRel name) ".git") eqn:Hgit;
      simpl; rewrite Hgit; (split; [done|by exists []]).
Qed.

(** X14.  What [zipProject] archives.  When the walk runs to its end, the
    names given to [archive.file] are, in the order of the walk, exactly
    the regular files below the working directory whose path relative to
    it neither begins with [.git] nor is matched by the ignore rules.
    When [fs.statSync], [fs.readdirSync] or [ig.ignores] throws, the walk
    stops there, and the names given until then are an initial part of
    that list. *)
Theorem addFilesFromDirectory_filter ignores files :
  ((addFilesFromDirectory ignores "" (Ok files)).2 = None →
   (addFilesFromDirectory ignores "" (Ok files)).1
   = List.filter (archivable ignores) (listingFiles "" files))
  ∧ ∃ rest,
      List.filter (archivable ignores) (listingFiles "" files)
      = ((addFilesFromDirectory ignores "" (Ok files)).1 ++ rest)%list.
Proof.
  apply (forEach_walked ignores (addEntry ignores "") (entryFiles "") files).
  apply Forall_forall. intros e _. apply addEntry_walked.
Qed.

Section ArchiveMore.
Variables (cwd : string) (ignores : string → result bool)
          (archiver : list string → archive_result)
          (unfinished : list string → option N).
Implicit Types (s : state) (files : gmap string N).

(** X15.  An artifact of at most 2 GiB, 2 GiB itself included, is handed to the
    bot and then unlinked, whether the send succeeds or fails: the tool
    reports success or throws the send error, and either way no file is
    left at the output path and no other file is touched. *)
Theorem zip_project_cleans_up listing sent directory s files size :
  bot s = true →
  (addFilesFromDirectory ignores "" listing).2 = None →
  archiver (addFilesFromDirectory ignores "" listing).1 = Closed size →
  (size ≤ TWO_GB)%N →
  let outputPath :=
    outputPathOf (if truthy directory then default "" directory else cwd) in
  zipProject cwd (Ok ignores) archiver unfinished listing directory files
  = (Ok outputPath, <[outputPath := size]> files)
  ∧ zip_project cwd (Ok ignores) archiver unfinished listing sent directory s files
    = (match sent with
       | SendOk => Ok "Project zipped and sent successfully"
       | SendError e => Throw e
       end,
       delete outputPath files, [outputPath]).
Proof.
  intros Hbot Hwalk Harchive Hsize outputPath.
  assert (Hzip :
    zipProject cwd (Ok ignores) archiver unfinished listing directory files
    = (Ok outputPath, <[outputPath := size]> files)).
  { unfold zipProject.
    destruct (addFilesFromDirectory ignores "" listing) as [names thrown].
    simpl in *. subst thrown. rewrite Harchive. fold outputPath.
    rewrite lookup_insert_eq. simpl.
    apply N.ltb_ge in Hsize. by rewrite Hsize. }
  split; [done|]. unfold zip_project. rewrite Hbot, Hzip. simpl.
  rewrite lookup_insert_eq, bool_decide_eq_true_2 by by eexists.
  rewrite delete_insert_eq. by destruct sent.
Qed.

(** X16.  When the archive run fails, its error is thrown to the caller of the
    tool and nothing is sent; no unlink is run on this path, so what was
    written under the output path stays there. *)
Theorem zip_project_archive_error listing sent directory s files e size :
  bot s = true →
  (addFilesFromDirectory ignores "" listing).2 = None →
  archiver (addFilesFromDirectory ignores "" listing).1 = ArchiveError e size →
  let outputPath :=
    outputPathOf (if truthy directory then default "" directory else cwd) in
  ∃ files',
    zip_project cwd (Ok ignores) archiver unfinished listing sent directory s files
    = (Throw e, files', [])
    ∧ files' !! outputPath = Some size
    ∧ ∀ other, other ≠ outputPath → files' !! other = files !! other.
Proof.
  intros Hbot Hwalk Harchive outputPath. unfold zip_project, zipProject.
  destruct (addFilesFromDirectory ignores "" listing) as [names thrown].
  simpl in *. subst thrown.
  rewrite Hbot, Harchive. simpl. eexists. split; [reflexivity|].
  split; [apply lookup_insert_eq|].
  intros other Hother. by apply lookup_insert_ne.
Qed.

End ArchiveMore.

(** The artifact has exactly 2 GiB and the send fails. *)
Lemma zip_project_cleans_up_witness :
  zipProject "/home/me/proj" (Ok (λ _, Ok false)) (λ _, Closed TWO_GB) (λ _, None)
    (Ok [File "README.md"]) None ∅
  = (Ok "/home/me/proj/proj-project.zip",
     <["/home/me/proj/proj-project.zip" := TWO_GB]> ∅)
  ∧ zip_project "/home/me/proj" (Ok (λ _, Ok false)) (λ _, Closed TWO_GB)
      (λ _, None) (Ok [File "README.md"]) (SendError "ETELEGRAM") None
      initial ∅
    = (Throw "ETELEGRAM", delete "/home/me/proj/proj-project.zip" ∅,
       ["/home/me/proj/proj-project.zip"]).
Proof.
  apply (zip_project_cleans_up "/home/me/proj" (λ _, Ok false)
           (λ _, Closed TWO_GB) (λ _, None) (Ok [File "README.md"])
           (SendError "ETELEGRAM") None initial ∅ TWO_GB).
  - reflexivity.
  - reflexivity.
  - reflexivity.
  - reflexivity.
Defined.

Lemma zip_project_archive_error_witness :
  ∃ files',
    zip_project "/home/me/proj" (Ok (λ _, Ok false))
      (λ _, ArchiveError "ENOSPC" 1024) (λ _, None) (Ok [File "README.md"])
      SendOk None initial ∅
    = (Throw "ENOSPC", files', [])
    ∧ files' !! "/home/me/proj/proj-project.zip" = Some 1024%N
    ∧ ∀ other, other ≠ "/home/me/proj/proj-project.zip" →
        files' !! other = (∅ : gmap string N) !! other.
Proof.
  apply (zip_project_archive_error "/home/me/proj" (λ _, Ok false)
           (λ _, ArchiveError "ENOSPC" 1024) (λ _, None)
           (Ok [File "README.md"]) SendOk None initial ∅ "ENOSPC" 1024).
  - reflexivity.
  - reflexivity.
  - reflexivity.
Defined.
